(** * The scas linker (linker/linker.c): symbol table, area placement,
      relocation table and late-immediate resolution.

    The C code works on heap objects reached through pointers.  The
    embedding below keeps the code's own order of reads and writes:

    - unsigned 64-bit quantities ([uint64_t]) are integers of [Z] reduced
      with [wrap64] after every operation that can leave the range;
    - [list_t] is a Rocq list, a pointer into [merged->areas] is an index
      into that list (stdpp's [!!] and [alter]);
    - area buffers ([area->data], [area->data_length]) are lists of bytes,
      the length being the length of the list;
    - the diagnostics list ([settings->errors]) is a list that only grows
      at its end. *)

From Stdlib Require Import ZArith Lia Ascii String List.
From stdpp Require Import base tactics option list strings.

Local Open Scope string_scope.
Local Open Scope list_scope.
Local Open Scope Z_scope.

(** ** Machine integers *)

Definition wrap64 (z : Z) : Z := z mod 2 ^ 64.
Definition wrap16 (z : Z) : Z := z mod 2 ^ 16.

(** [~x] on a [uint64_t]. *)
Definition not64 (z : Z) : Z := wrap64 (Z.lnot z).

(** ** strcasecmp (libc)

    POSIX fixes only the sign of the result: the two strings are compared
    byte by byte after [tolower] (C locale), the shorter string being the
    smaller one when it is a prefix of the other. *)

Definition tolower (c : ascii) : ascii :=
  let n := nat_of_ascii c in
  if ((65 <=? n)%nat && (n <=? 90)%nat)%bool then ascii_of_nat (n + 32) else c.

Fixpoint strcasecmp (s1 s2 : string) : Z :=
  match s1, s2 with
  | EmptyString, EmptyString => 0
  | EmptyString, String _ _ => -1
  | String _ _, EmptyString => 1
  | String c1 r1, String c2 r2 =>
      match Nat.compare (nat_of_ascii (tolower c1)) (nat_of_ascii (tolower c2)) with
      | Eq => strcasecmp r1 r2
      | Lt => -1
      | Gt => 1
      end
  end.

(** Two names that differ at most in the case of their letters. *)
Fixpoint lowercase (s : string) : string :=
  match s with
  | EmptyString => EmptyString
  | String c r => String (tolower c) (lowercase r)
  end.

Definition same_name (s1 s2 : string) : Prop := lowercase s1 = lowercase s2.

(** ** Data model (objects.h, errors.h and expression.h are not part of
       the sources; the fields are the ones linker.c reads and writes) *)

Inductive symbol_type := SYMBOL_LABEL | SYMBOL_EQUATE.

Record symbol_t := mk_symbol {
  sym_type : symbol_type;
  sym_name : string;
  sym_value : Z;              (* uint64_t *)
  sym_defined_address : Z;
  sym_exported : Z
}.

Inductive expression_error :=
  EXPRESSION_OK | EXPRESSION_BAD_SYMBOL | EXPRESSION_BAD_SYNTAX.

(** What one call of [evaluate_expression] hands back: the returned value
    and the two out-parameters [error] and [symbol]. *)
Record evaluation := mk_evaluation {
  ev_result : Z;
  ev_error : expression_error;
  ev_symbol : string
}.

(** Modelled from the spec: the expression evaluator (expression.c) is a
    collaborator outside the sources, "evaluate(expression, symbolTable) ->
    (value, errorKind?, failingName?)".  A tokenized expression is
    represented by what it evaluates to in a given symbol list, so
    [evaluate_expression] is application.  The value comes back as a
    [uint64_t]. *)
Definition tokenized_expression_t := list symbol_t -> evaluation.

Definition evaluate_expression (e : tokenized_expression_t)
    (symbols : list symbol_t) : evaluation :=
  let r := e symbols in
  mk_evaluation (wrap64 (ev_result r)) (ev_error r) (ev_symbol r).

Inductive immediate_type := IMM_TYPE_ABSOLUTE | IMM_TYPE_RELATIVE.

Global Instance immediate_type_eq_dec : EqDecision immediate_type.
Proof. solve_decision. Defined.

Record late_immediate_t := mk_imm {
  imm_expression : tokenized_expression_t;
  imm_width : Z;
  imm_address : Z;              (* offset of the patched bytes in the area *)
  imm_instruction_address : Z;
  imm_base_address : Z;
  imm_type : immediate_type
}.

Record area_t := mk_area {
  area_name : string;
  late_immediates : list late_immediate_t;
  area_symbols : list symbol_t;
  data : list Z;                (* uint8_t data[data_length] *)
  final_address : Z
}.

Definition data_length (a : area_t) : Z := Z.of_nat (length (data a)).

Inductive error_code :=
  ERROR_INVALID_SYNTAX | ERROR_UNKNOWN_SYMBOL | ERROR_VALUE_TRUNCATED
| ERROR_DUPLICATE_SYMBOL.

Global Instance error_code_eq_dec : EqDecision error_code.
Proof. solve_decision. Defined.

(** One reported diagnostic: the arguments [add_error_from_map] receives.
    The source map is the one of the area named [err_area]. *)
Record error_t := mk_error {
  err_code : error_code;
  err_area : string;
  err_address : Z;
  err_symbol : option string
}.

(** Modelled from the spec: [add_error_from_map] (errors.c) is the
    diagnostic sink, "diagnosticSink.report(kind, location, address,
    args...)": append-only, never raises. *)
Definition add_error_from_map (errors : list error_t) (code : error_code)
    (area : area_t) (address : Z) (arg : option string) : list error_t :=
  errors ++ [mk_error code (area_name area) address arg].

(** Modelled from the spec: [list_add] and [list_del] (list.c) append an
    item at the end of a list and remove the item at an index ("bind a
    transient symbol ..., then remove it immediately after"). *)
Definition list_add {A} (l : list A) (x : A) : list A := l ++ [x].
Definition list_del {A} (l : list A) (index : Z) : list A :=
  if index <? 0 then l else delete (Z.to_nat index) l.

(** Modelled from the spec: [append_to_area] (objects.c) appends bytes at
    the end of the area's buffer. *)
Definition append_to_area (area : area_t) (bytes : list Z) : area_t :=
  mk_area (area_name area) (late_immediates area) (area_symbols area)
          (data area ++ bytes) (final_address area).

(** Modelled from the spec: [relocate_area] (merge.c) called with
    [immediates = false] gives the area its final base address ("gains a
    final base address exactly once during placement"). *)
Definition relocate_area (area : area_t) (address : Z) : area_t :=
  mk_area (area_name area) (late_immediates area) (area_symbols area)
          (data area) address.

(** ** find_symbol *)

Fixpoint find_symbol (symbols : list symbol_t) (name : string) : option symbol_t :=
  match symbols with
  | [] => None
  | sym :: rest =>
      if strcasecmp (sym_name sym) name =? 0 then Some sym
      else find_symbol rest name
  end.

(** ** gather_symbols *)

Fixpoint gather_loop (area : area_t) (items : list symbol_t)
    (symbols : list symbol_t) (errors : list error_t)
    : list symbol_t * list error_t :=
  match items with
  | [] => (symbols, errors)
  | sym :: rest =>
      match find_symbol symbols (sym_name sym) with
      | Some _ =>
          gather_loop area rest symbols
            (add_error_from_map errors ERROR_DUPLICATE_SYMBOL area
               (sym_defined_address sym) (Some (sym_name sym)))
      | None => gather_loop area rest (list_add symbols sym) errors
      end
  end.

Definition gather_symbols (symbols : list symbol_t) (area : area_t)
    (errors : list error_t) : list symbol_t * list error_t :=
  gather_loop area (area_symbols area) symbols errors.

(** ** resolve_immediate_values *)

(** The mask loop [mask = 1; shift = width; while (--shift) { mask <<= 1;
    mask |= 1; }] on a [uint64_t mask].  For [width >= 1] the body runs
    [width - 1] times; a width below 1 makes the C loop count down past
    the smallest [int] and is outside the model, so every statement about
    a resolved value below assumes [1 <= width]. *)
Fixpoint mask_loop (n : nat) (mask : Z) : Z :=
  match n with
  | O => mask
  | S n' => mask_loop n' (Z.lor (wrap64 (Z.shiftl mask 1)) 1)
  end.

Definition width_mask (width : Z) : Z := mask_loop (Z.to_nat (width - 1)) 1.

(** The two truncation tests.  [1 << imm->width] is an [int] shift, exact
    for widths up to 30. *)
Definition truncated_relative (width result mask : Z) : bool :=
  if negb (Z.land result (Z.shiftr mask 1) =? result) then
    (Z.land result (Z.shiftl 1 width) =? 0)
    || negb (Z.land result (not64 mask) =? not64 mask)
  else false.

Definition truncated_absolute (width result mask : Z) : bool :=
  negb (Z.land result mask =? result)
  && negb (Z.shiftr (not64 result) width =? 0).

Definition value_truncated (type : immediate_type) (width result mask : Z) : bool :=
  if decide (type = IMM_TYPE_RELATIVE) then truncated_relative width result mask
  else truncated_absolute width result mask.

(** The patch loop [for (j = 0; j < width / 8; ++j) { data[address + j] |=
    result & 0xFF; result >>= 8; }], [n] being the number of rounds left.
    A store past the end of the buffer is undefined in C; here it leaves
    the buffer as it is. *)
Fixpoint patch_loop (n : nat) (j : Z) (address result : Z) (data : list Z) : list Z :=
  match n with
  | O => data
  | S n' =>
      patch_loop n' (j + 1) address (Z.shiftr result 8)
        (alter (fun b => Z.lor b (Z.land result 255)) (Z.to_nat (address + j)) data)
  end.

Definition patch (width address result : Z) (data : list Z) : list Z :=
  patch_loop (Z.to_nat (Z.quot width 8)) 0 address result data.

(** The immediate after [imm->instruction_address += area->final_address;
    imm->base_address += area->final_address]. *)
Definition rebase_immediate (area : area_t) (imm : late_immediate_t) : late_immediate_t :=
  mk_imm (imm_expression imm) (imm_width imm) (imm_address imm)
         (wrap64 (imm_instruction_address imm + final_address area))
         (wrap64 (imm_base_address imm + final_address area))
         (imm_type imm).

Definition sym_pc (imm : late_immediate_t) : symbol_t :=
  mk_symbol SYMBOL_LABEL "$" (imm_instruction_address imm) 0 0.

(** The state the loop of [resolve_immediate_values] works on: the symbol
    list, the area's buffer and the diagnostics. *)
Record resolve_state := mk_rs {
  rs_symbols : list symbol_t;
  rs_data : list Z;
  rs_errors : list error_t
}.

(** One round of the loop, for the immediate [imm0] as stored. *)
Definition resolve_immediate (area : area_t) (imm0 : late_immediate_t)
    (st : resolve_state) : late_immediate_t * resolve_state :=
  let imm := rebase_immediate area imm0 in
  let symbols1 := list_add (rs_symbols st) (sym_pc imm) in
  let ev := evaluate_expression (imm_expression imm) symbols1 in
  let symbols2 := list_del symbols1 (Z.of_nat (length symbols1) - 1) in
  match ev_error ev with
  | EXPRESSION_BAD_SYMBOL =>
      (imm, mk_rs symbols2 (rs_data st)
              (add_error_from_map (rs_errors st) ERROR_UNKNOWN_SYMBOL area
                 (imm_instruction_address imm) (Some (ev_symbol ev))))
  | EXPRESSION_BAD_SYNTAX =>
      (imm, mk_rs symbols2 (rs_data st)
              (add_error_from_map (rs_errors st) ERROR_INVALID_SYNTAX area
                 (imm_instruction_address imm) None))
  | EXPRESSION_OK =>
      let result :=
        if decide (imm_type imm = IMM_TYPE_RELATIVE)
        then wrap64 (ev_result ev - imm_base_address imm)
        else ev_result ev in
      let mask := width_mask (imm_width imm) in
      let errors :=
        if value_truncated (imm_type imm) (imm_width imm) result mask
        then add_error_from_map (rs_errors st) ERROR_VALUE_TRUNCATED area
               (imm_instruction_address imm) None
        else rs_errors st in
      (imm, mk_rs symbols2
              (patch (imm_width imm) (imm_address imm) (Z.land result mask) (rs_data st))
              errors)
  end.

Fixpoint resolve_loop (area : area_t) (imms : list late_immediate_t)
    (st : resolve_state) : list late_immediate_t * resolve_state :=
  match imms with
  | [] => ([], st)
  | imm :: rest =>
      let '(imm', st') := resolve_immediate area imm st in
      let '(rest', st'') := resolve_loop area rest st' in
      (imm' :: rest', st'')
  end.

Definition resolve_immediate_values (symbols : list symbol_t) (area : area_t)
    (errors : list error_t) : list symbol_t * area_t * list error_t :=
  let '(imms, st) :=
    resolve_loop area (late_immediates area) (mk_rs symbols (data area) errors) in
  (rs_symbols st,
   mk_area (area_name area) imms (area_symbols area) (rs_data st) (final_address area),
   rs_errors st).

(** ** auto_relocate_area *)

(** The object representation of a [uint16_t] on the little-endian hosts
    scas targets: low byte first. *)
Definition uint16_bytes (value : Z) : list Z :=
  [Z.land value 255; Z.land (Z.shiftr value 8) 255].

Definition needs_relocation (imm : late_immediate_t) : bool :=
  bool_decide (imm_type imm ≠ IMM_TYPE_RELATIVE)
  && negb (imm_base_address imm =? imm_address imm).

Fixpoint auto_relocate_loop (area : area_t) (imms : list late_immediate_t)
    (relocation_table : area_t) : area_t :=
  match imms with
  | [] => relocation_table
  | imm :: rest =>
      auto_relocate_loop area rest
        (if needs_relocation imm
         then append_to_area relocation_table
                (uint16_bytes (wrap16 (wrap64 (imm_address imm + final_address area))))
         else relocation_table)
  end.

Definition auto_relocate_area (area relocation_table : area_t) : area_t :=
  auto_relocate_loop area (late_immediates area) relocation_table.

(** ** move_origin

    The symbol list holds pointers to the symbol records of the areas.
    [gather_symbols] never inserts a record whose name is already in the
    list, so no record is reachable from two entries and the loop of
    [move_origin] is a map over the list.  The areas' own lists
    ([area->symbols]) see the same updates in C; the linker does not read
    them again, and the model leaves them as they are. *)

Definition move_symbol (origin : Z) (sym : symbol_t) : symbol_t :=
  mk_symbol (sym_type sym) (sym_name sym) (wrap64 (sym_value sym + origin))
            (sym_defined_address sym) (sym_exported sym).

Definition move_origin (origin : Z) (symbols : list symbol_t) : list symbol_t :=
  map (move_symbol origin) symbols.

(** ** link_objects

    [merge_objects], [remove_unused_functions] and [get_area_by_name] are
    collaborators outside the sources.  The model starts from the merged
    object they leave: [merged] is [merged->areas], and [relocation_table]
    is the pointer [get_area_by_name(merged, "__scas_relocation_table")]
    returns, as an index into [merged] ([None] for [NULL]). *)

Record linker_settings_t := mk_settings {
  automatic_relocation : bool
}.

(** First loop: final addresses and the relocation table.  [i] is the loop
    counter, [n] the number of rounds left.  With no relocation table
    ([NULL]) and automatic relocation on, the C code would write through a
    null pointer; the model leaves the areas as they are. *)
Fixpoint place_loop (settings : linker_settings_t) (relocation_table : option nat)
    (n i : nat) (areas : list area_t) (address : Z) : list area_t * Z :=
  match n with
  | O => (areas, address)
  | S n' =>
      let areas1 := alter (fun area => relocate_area area address) i areas in
      let areas2 :=
        if automatic_relocation settings then
          if decide (relocation_table = Some i) then
            alter (fun area => append_to_area area (uint16_bytes 0)) i areas1
          else
            match areas1 !! i, relocation_table with
            | Some area, Some r => alter (auto_relocate_area area) r areas1
            | _, _ => areas1
            end
        else areas1 in
      let address' :=
        match areas2 !! i with
        | Some area => wrap64 (address + data_length area)
        | None => address
        end in
      place_loop settings relocation_table n' (S i) areas2 address'
  end.

Definition place_areas (settings : linker_settings_t) (relocation_table : option nat)
    (merged : list area_t) : list area_t :=
  fst (place_loop settings relocation_table (length merged) 0 merged 0).

(** Second loop. *)
Fixpoint gather_all (areas : list area_t) (symbols : list symbol_t)
    (errors : list error_t) : list symbol_t * list error_t :=
  match areas with
  | [] => (symbols, errors)
  | area :: rest =>
      let '(symbols', errors') := gather_symbols symbols area errors in
      gather_all rest symbols' errors'
  end.

(** Third loop; [final] is the buffer of the area "FINAL". *)
Record emit_state := mk_es {
  es_symbols : list symbol_t;
  es_errors : list error_t;
  es_final : list Z
}.

Fixpoint emit_loop (origin : Z) (areas : list area_t) (st : emit_state)
    : list area_t * emit_state :=
  match areas with
  | [] => ([], st)
  | area :: rest =>
      let symbols1 :=
        if origin =? 0 then es_symbols st else move_origin origin (es_symbols st) in
      let '(symbols2, area', errors') :=
        resolve_immediate_values symbols1 area (es_errors st) in
      let '(rest', st') :=
        emit_loop origin rest (mk_es symbols2 errors' (es_final st ++ data area')) in
      (area' :: rest', st')
  end.

(** [(int) x] for an unsigned [x]: the value modulo 2^32 read as a two's
    complement number. *)
Definition to_int (z : Z) : Z :=
  let r := z mod 2 ^ 32 in if r <? 2 ^ 31 then r else r - 2 ^ 32.

(** What a run of [link_objects] leaves: the bytes and the length handed
    to [settings->write_output], the diagnostics, the symbol list as it is
    when it is freed, and the merged areas. *)
Record link_result := mk_link_result {
  lr_output : list Z;
  lr_output_length : Z;
  lr_errors : list error_t;
  lr_symbols : list symbol_t;
  lr_areas : list area_t
}.

Definition link_objects (settings : linker_settings_t) (origin : Z)
    (relocation_table : option nat) (merged : list area_t) : link_result :=
  let placed := place_areas settings relocation_table merged in
  let '(symbols, errors) := gather_all placed [] [] in
  let '(areas, st) := emit_loop origin placed (mk_es symbols errors []) in
  mk_link_result (es_final st) (to_int (Z.of_nat (length (es_final st))))
                 (es_errors st) (es_symbols st) areas.

(** ** Sample expressions, used to run the model on concrete inputs *)

(** A numeric literal. *)
Definition expr_number (v : Z) : tokenized_expression_t :=
  fun _ => mk_evaluation v EXPRESSION_OK "".

(** A reference to one symbol, looked up as the linker itself does. *)
Definition expr_symbol (name : string) : tokenized_expression_t :=
  fun symbols =>
    match find_symbol symbols name with
    | Some sym => mk_evaluation (sym_value sym) EXPRESSION_OK ""
    | None => mk_evaluation 0 EXPRESSION_BAD_SYMBOL name
    end.

(** An expression the evaluator rejects. *)
Definition expr_malformed : tokenized_expression_t :=
  fun _ => mk_evaluation 0 EXPRESSION_BAD_SYNTAX "".

(** ** Vocabulary of the statements *)

(** The key under which a symbol is looked up. *)
Definition sym_key (sym : symbol_t) : string := lowercase (sym_name sym).

(** No two entries of a symbol list share a name, letter case apart. *)
Definition unique_names (symbols : list symbol_t) : Prop :=
  NoDup (map sym_key symbols).

(** Every symbol definition of the merged object with the area holding it,
    in the order the second loop of [link_objects] visits them. *)
Definition definitions (areas : list area_t) : list (area_t * symbol_t) :=
  flat_map (fun area => map (pair area) (area_symbols area)) areas.

(** The diagnostic [gather_symbols] reports for the definition [d]. *)
Definition duplicate_error (d : area_t * symbol_t) : error_t :=
  mk_error ERROR_DUPLICATE_SYMBOL (area_name (fst d))
           (sym_defined_address (snd d)) (Some (sym_name (snd d))).

(** One round of the loop of [gather_symbols], for the definition [d]. *)
Definition gather_definition (st : list symbol_t * list error_t)
    (d : area_t * symbol_t) : list symbol_t * list error_t :=
  match find_symbol (fst st) (sym_name (snd d)) with
  | Some _ => (fst st, snd st ++ [duplicate_error d])
  | None => (fst st ++ [snd d], snd st)
  end.

(** The diagnostics that report a duplicate of the name [name]. *)
Definition reports_duplicate_of (name : string) (e : error_t) : Prop :=
  err_code e = ERROR_DUPLICATE_SYMBOL
  /\ option_map lowercase (err_symbol e) = Some (lowercase name).

Global Instance reports_duplicate_of_dec name e : Decision (reports_duplicate_of name e).
Proof. unfold reports_duplicate_of. apply _. Defined.

(** What the evaluator returns for the immediate [imm] of [area], in the
    symbol list [symbols] extended with the transient [$]. *)
Definition evaluation_of (area : area_t) (imm : late_immediate_t)
    (symbols : list symbol_t) : evaluation :=
  evaluate_expression (imm_expression imm)
    (list_add symbols (sym_pc (rebase_immediate area imm))).

(** The value the truncation test and the patch loop work on: the
    evaluated target, less the absolute base address for a relative
    immediate. *)
Definition resolved_value (area : area_t) (imm : late_immediate_t)
    (symbols : list symbol_t) : Z :=
  if decide (imm_type imm = IMM_TYPE_RELATIVE)
  then wrap64 (ev_result (evaluation_of area imm symbols)
               - imm_base_address (rebase_immediate area imm))
  else ev_result (evaluation_of area imm symbols).

(** Diagnostics of the resolver for the immediate [imm] of [area]. *)
Definition resolver_error (code : error_code) (area : area_t)
    (imm : late_immediate_t) (arg : option string) : error_t :=
  mk_error code (area_name area)
           (imm_instruction_address (rebase_immediate area imm)) arg.

(** Byte [j] of a value, counted from the least significant one. *)
Definition byte_of (value j : Z) : Z := Z.land (Z.shiftr value (8 * j)) 255.

(** The areas as a linear layout from [address] on places them: each one
    at the end of the one before. *)
Fixpoint laid_out (address : Z) (areas : list area_t) : list area_t :=
  match areas with
  | [] => []
  | area :: rest =>
      relocate_area area address :: laid_out (wrap64 (address + data_length area)) rest
  end.

Fixpoint end_address (address : Z) (areas : list area_t) : Z :=
  match areas with
  | [] => address
  | area :: rest => end_address (wrap64 (address + data_length area)) rest
  end.

(** Each area starts where the one before it ends, the first at [address]
    (unsigned 64-bit arithmetic). *)
Fixpoint contiguous_from (address : Z) (areas : list area_t) : Prop :=
  match areas with
  | [] => True
  | area :: rest =>
      final_address area = address
      /\ contiguous_from (wrap64 (address + data_length area)) rest
  end.

(** The relocation table as the specification words it: the immediates
    that are absolute and whose patch offset differs from their base
    address, each giving the two bytes of offset + final address, low byte
    first. *)
Definition is_relocated (imm : late_immediate_t) : Prop :=
  imm_type imm = IMM_TYPE_ABSOLUTE /\ imm_address imm <> imm_base_address imm.

Global Instance is_relocated_dec imm : Decision (is_relocated imm).
Proof. unfold is_relocated. apply _. Defined.

Definition little_endian_16 (value : Z) : list Z :=
  [value mod 2 ^ 16 mod 256; value mod 2 ^ 16 / 256].

Definition relocation_entries (area : area_t) : list Z :=
  flat_map (fun imm => little_endian_16 (imm_address imm + final_address area))
           (filter is_relocated (late_immediates area)).

(** The area has no immediate that goes into the relocation table. *)
Definition adds_no_entry (area : area_t) : Prop :=
  filter is_relocated (late_immediates area) = [].

(** Under automatic relocation, the relocation table sits at index
    [relocation_table] of [merged] and no area behind it adds an entry to
    it; so in particular when the table is the last area. *)
Definition table_is_complete (relocation_table : option nat) (merged : list area_t)
    : Prop :=
  exists user table rest,
    merged = user ++ table :: rest
    /\ relocation_table = Some (length user)
    /\ Forall adds_no_entry rest.

(** An area after the third loop is the placed area with its immediates
    resolved: same name, address and size. *)
Definition same_place (placed final : area_t) : Prop :=
  area_name final = area_name placed
  /\ final_address final = final_address placed
  /\ data_length final = data_length placed.

(** Some bit of [x] at a position from [width] up, within the 64 bits. *)
Definition bits_beyond (width x : Z) : Prop :=
  exists i, width <= i < 64 /\ Z.testbit x i = true.

(** The value of the first two-byte entry of a table. *)
Definition entry_value (bytes : list Z) : Z :=
  match bytes with
  | low :: high :: _ => low + 256 * high
  | _ => 0
  end.

(** ** Sample inputs *)

Definition auto_on : linker_settings_t := mk_settings true.
Definition auto_off : linker_settings_t := mk_settings false.

(** An area defining [Foo]. *)
Definition area_Foo : area_t :=
  mk_area "CODE" [] [mk_symbol SYMBOL_LABEL "Foo" 0x1234 0 0;
                     mk_symbol SYMBOL_LABEL "other" 7 0 0] [] 0.

(** Two areas defining [bar], the second one as [BAR]. *)
Definition area_bar1 : area_t :=
  mk_area "CODE" [] [mk_symbol SYMBOL_LABEL "bar" 1 0x10 0] [] 0.
Definition area_bar2 : area_t :=
  mk_area "DATA" [] [mk_symbol SYMBOL_LABEL "baz" 5 0x20 0;
                     mk_symbol SYMBOL_LABEL "BAR" 2 0x22 0] [] 0.

(** [LD HL, nn] with the absolute 16-bit immediate [v] at offset 1. *)
Definition area_abs16 (v : Z) : area_t :=
  mk_area "CODE" [mk_imm (expr_number v) 16 1 0 0 IMM_TYPE_ABSOLUTE] []
          [0x21; 0; 0] 0.

(** A 12-bit absolute immediate of value 0xABC at offset 1. *)
Definition imm_12bit : late_immediate_t :=
  mk_imm (expr_number 0xABC) 12 1 0 0 IMM_TYPE_ABSOLUTE.
Definition area_12bit : area_t := mk_area "CODE" [imm_12bit] [] [0x21; 0; 0] 0.

(** The 3-bit operand of a [BIT b, r] instruction. *)
Definition imm_bit3 : late_immediate_t :=
  mk_imm (expr_number 5) 3 1 0 0 IMM_TYPE_ABSOLUTE.

(** The area [link_objects] creates for the relocation table, with its one
    symbol and no bytes. *)
Definition table_area : area_t :=
  mk_area "__scas_relocation_table" []
          [mk_symbol SYMBOL_LABEL "__scas_relocation_table" 0 0 0] [] 0.

(** Three bytes [CD nn nn] with an absolute 16-bit immediate at offset 1. *)
Definition call_area : area_t :=
  mk_area "CODE" [mk_imm (expr_number 0x1234) 16 1 0 0 IMM_TYPE_ABSOLUTE] []
          [0xCD; 0; 0] 0.

(** An area of [n] zero bytes, and one whose absolute 16-bit immediate
    sits at offset 4. *)
Definition pad_area (n : Z) : area_t := mk_area "PAD" [] [] (repeat 0 (Z.to_nat n)) 0.
Definition load_area : area_t :=
  mk_area "CODE" [mk_imm (expr_number 0x1234) 16 4 3 3 IMM_TYPE_ABSOLUTE] []
          [0; 0; 0; 0x21; 0; 0] 0.

(** [LD HL, (foo)] with [foo] defined nowhere, followed by a second
    immediate that resolves. *)
Definition imm_foo : late_immediate_t :=
  mk_imm (expr_symbol "foo") 16 1 0 0 IMM_TYPE_ABSOLUTE.
Definition imm_after_foo : late_immediate_t :=
  mk_imm (expr_number 0x12) 8 4 3 0 IMM_TYPE_ABSOLUTE.
Definition area_foo : area_t :=
  mk_area "CODE" [imm_foo; imm_after_foo] [] [0x2A; 0; 0; 0x3E; 0] 0x100.

(** Two areas; the first defines [start] and loads its address, the second
    loads it too. *)
Definition imm_start (offset : Z) : late_immediate_t :=
  mk_imm (expr_symbol "start") 16 offset 0 0 IMM_TYPE_ABSOLUTE.
Definition two_areas : list area_t :=
  [mk_area "CODE" [imm_start 1] [mk_symbol SYMBOL_LABEL "start" 0x10 0 0] [0x21; 0; 0] 0;
   mk_area "DATA" [imm_start 0] [] [0; 0] 0].

(** [start:] at offset 0 and, 198 bytes further, [JR start]: the 8-bit
    displacement sits at offset 199 and is relative to the address 200 of
    the next instruction, so the difference is 0 - 200. *)
Definition imm_jr : late_immediate_t :=
  mk_imm (expr_symbol "start") 8 199 198 200 IMM_TYPE_RELATIVE.
Definition area_jr : area_t :=
  mk_area "CODE" [imm_jr] [mk_symbol SYMBOL_LABEL "start" 0 0 0]
          (repeat 0 198 ++ [0x18; 0]) 0.

(** ** Vocabulary of the further properties *)

(** The number a run of bytes holds, least significant byte first. *)
Fixpoint le_value (bytes : list Z) : Z :=
  match bytes with
  | [] => 0
  | b :: rest => b + 256 * le_value rest
  end.

(** The entries a run of bytes holds, two bytes each, low byte first. *)
Fixpoint decode_entries (bytes : list Z) : list Z :=
  match bytes with
  | low :: high :: rest => (low + 256 * high) :: decode_entries rest
  | _ => []
  end.

(** Every bit set in [old] is set in [new]. *)
Definition keeps_bits (old new : Z) : Prop := Z.land new old = old.

(** What one round of the resolver does to the buffer, the symbol list
    being [symbols]. *)
Definition round_patch (area : area_t) (symbols : list symbol_t)
    (imm : late_immediate_t) (data : list Z) : list Z :=
  match ev_error (evaluation_of area imm symbols) with
  | EXPRESSION_OK =>
      patch (imm_width imm) (imm_address imm)
        (Z.land (resolved_value area imm symbols) (width_mask (imm_width imm))) data
  | _ => data
  end.

(** The diagnostics one round of the resolver adds. *)
Definition round_errors (area : area_t) (symbols : list symbol_t)
    (imm : late_immediate_t) : list error_t :=
  match ev_error (evaluation_of area imm symbols) with
  | EXPRESSION_BAD_SYMBOL =>
      [resolver_error ERROR_UNKNOWN_SYMBOL area imm
         (Some (ev_symbol (evaluation_of area imm symbols)))]
  | EXPRESSION_BAD_SYNTAX => [resolver_error ERROR_INVALID_SYNTAX area imm None]
  | EXPRESSION_OK =>
      if value_truncated (imm_type imm) (imm_width imm)
           (resolved_value area imm symbols) (width_mask (imm_width imm))
      then [resolver_error ERROR_VALUE_TRUNCATED area imm None]
      else []
  end.

(** The number of bytes of a run of areas. *)
Fixpoint total_length (areas : list area_t) : Z :=
  match areas with
  | [] => 0
  | area :: rest => data_length area + total_length rest
  end.

(** The later area holds the bytes of the earlier one with, at most, more
    bits set. *)
Definition only_sets_bits (before after : area_t) : Prop :=
  length (data after) = length (data before)
  /\ forall k b, data before !! k = Some b ->
       exists b', data after !! k = Some b' /\ keeps_bits b b'.

(** More sample inputs. *)
Definition imm_malformed : late_immediate_t :=
  mk_imm expr_malformed 16 1 0 0 IMM_TYPE_ABSOLUTE.

(** [LD HL, -1]: the constant reaches the linker as 2^64 - 1. *)
Definition imm_minus_one : late_immediate_t :=
  mk_imm (expr_number (-1)) 16 1 0 0 IMM_TYPE_ABSOLUTE.

(** A 16-bit relative immediate whose difference is -40000. *)
Definition imm_rel16 : late_immediate_t :=
  mk_imm (expr_number 0) 16 1 0 40000 IMM_TYPE_RELATIVE.

Definition imm_word (v offset : Z) : late_immediate_t :=
  mk_imm (expr_number v) 16 offset 0 0 IMM_TYPE_ABSOLUTE.

(** An area with one relative and two absolute immediates, placed at
    0x4000; the second absolute one has its base address at its offset. *)
Definition mixed_area : area_t :=
  mk_area "CODE"
    [mk_imm (expr_number 0) 8 1 0 2 IMM_TYPE_RELATIVE;
     mk_imm (expr_number 0) 16 3 2 2 IMM_TYPE_ABSOLUTE;
     mk_imm (expr_number 0) 16 6 5 6 IMM_TYPE_ABSOLUTE]
    [] [0x18; 0; 0x21; 0; 0; 0xC3; 0; 0] 0x4000.

(** An area of four bytes without immediates. *)
Definition plain_area : area_t := mk_area "DATA" [] [] [1; 2; 3; 4] 0.

(** * Properties *)

(** ** Names and lookup *)

Lemma nat_of_ascii_inj (a b : ascii) : nat_of_ascii a = nat_of_ascii b -> a = b.
Proof.
  intros H. rewrite <- (ascii_nat_embedding a), <- (ascii_nat_embedding b).
  now rewrite H.
Qed.

Lemma strcasecmp_zero (s1 s2 : string) :
  strcasecmp s1 s2 = 0 <-> same_name s1 s2.
Proof.
  unfold same_name. revert s2.
  induction s1 as [|c1 r1 IH]; intros [|c2 r2]; simpl; try (split; [lia | discriminate]).
  - tauto.
  - destruct (Nat.compare_spec (nat_of_ascii (tolower c1)) (nat_of_ascii (tolower c2)))
      as [He | Hlt | Hgt].
    + apply nat_of_ascii_inj in He. rewrite IH, He.
      split; [intros -> | intros [= ?]]; done.
    + split; [lia | intros [= Hc _]; rewrite Hc in Hlt; lia].
    + split; [lia | intros [= Hc _]; rewrite Hc in Hgt; lia].
Qed.

Lemma strcasecmp_test (s1 s2 : string) :
  (strcasecmp s1 s2 =? 0) = bool_decide (lowercase s1 = lowercase s2).
Proof.
  destruct (Z.eqb_spec (strcasecmp s1 s2) 0) as [H | H];
    rewrite strcasecmp_zero in H; unfold same_name in H.
  - now rewrite bool_decide_eq_true_2.
  - now rewrite bool_decide_eq_false_2.
Qed.

Lemma find_symbol_cons (sym : symbol_t) (rest : list symbol_t) (name : string) :
  find_symbol (sym :: rest) name
  = if decide (sym_key sym = lowercase name) then Some sym else find_symbol rest name.
Proof.
  simpl. rewrite strcasecmp_test. unfold sym_key.
  destruct (decide (lowercase (sym_name sym) = lowercase name)).
  - now rewrite bool_decide_eq_true_2.
  - now rewrite bool_decide_eq_false_2.
Qed.

Lemma find_symbol_None (symbols : list symbol_t) (name : string) :
  find_symbol symbols name = None
  <-> forall sym, sym ∈ symbols -> sym_key sym <> lowercase name.
Proof.
  induction symbols as [|x l IH].
  - split; [intros _ sym Hin; inversion Hin | done].
  - rewrite find_symbol_cons. destruct (decide (sym_key x = lowercase name)) as [He | Hne].
    + split; [discriminate | intros H; exfalso; apply (H x); [left | done]].
    + rewrite IH. split.
      * intros H sym Hin. apply elem_of_cons in Hin as [-> | Hin]; auto.
      * intros H sym Hin. apply H. now right.
Qed.

Lemma find_symbol_Some_elem (symbols : list symbol_t) (name : string) (sym : symbol_t) :
  find_symbol symbols name = Some sym ->
  sym ∈ symbols /\ sym_key sym = lowercase name.
Proof.
  induction symbols as [|x l IH]; [discriminate |].
  rewrite find_symbol_cons. destruct (decide (sym_key x = lowercase name)).
  - intros [= <-]. split; [left | done].
  - intros H. destruct (IH H). split; [now right | done].
Qed.

Lemma find_symbol_unique (symbols : list symbol_t) (name : string) (sym : symbol_t) :
  unique_names symbols -> sym ∈ symbols -> sym_key sym = lowercase name ->
  find_symbol symbols name = Some sym.
Proof.
  unfold unique_names. induction symbols as [|x l IH]; intros Hnd Hin Hkey.
  - inversion Hin.
  - simpl in Hnd. apply NoDup_cons in Hnd as [Hx Hnd].
    rewrite find_symbol_cons. destruct (decide (sym_key x = lowercase name)) as [He | Hne].
    + apply elem_of_cons in Hin as [-> | Hin]; [done |].
      exfalso. apply Hx. rewrite He, <- Hkey. now apply list_elem_of_fmap_2.
    + apply elem_of_cons in Hin as [-> | Hin]; [done |]. now apply IH.
Qed.

(** ** Gathering *)

Lemma gather_loop_fold (area : area_t) (items : list symbol_t)
    (symbols : list symbol_t) (errors : list error_t) :
  gather_loop area items symbols errors
  = fold_left gather_definition (map (pair area) items) (symbols, errors).
Proof.
  revert symbols errors. induction items as [|sym rest IH]; intros symbols errors.
  - reflexivity.
  - simpl. unfold gather_definition at 2. simpl.
    destruct (find_symbol symbols (sym_name sym)); apply IH.
Qed.

Lemma gather_all_fold (areas : list area_t) (symbols : list symbol_t)
    (errors : list error_t) :
  gather_all areas symbols errors
  = fold_left gather_definition (definitions areas) (symbols, errors).
Proof.
  revert symbols errors. induction areas as [|area rest IH]; intros symbols errors.
  - reflexivity.
  - simpl. unfold gather_symbols. rewrite gather_loop_fold.
    unfold definitions in *. simpl. rewrite fold_left_app.
    destruct (fold_left gather_definition (map (pair area) (area_symbols area))
                (symbols, errors)) as [symbols' errors'].
    apply IH.
Qed.

Lemma find_symbol_None_filter (symbols : list symbol_t) (name : string) :
  find_symbol symbols name = None
  <-> filter (fun sym => sym_key sym = lowercase name) symbols = [].
Proof.
  rewrite find_symbol_None. split.
  - intros H. induction symbols as [|x l IH]; [done |].
    rewrite filter_cons_False by (apply H; left).
    apply IH. intros sym Hin. apply H. now right.
  - intros H sym Hin Hkey.
    now apply (filter_nil_not_elem_of _ _ sym H).
Qed.

Lemma gather_definition_unique (st : list symbol_t * list error_t)
    (d : area_t * symbol_t) :
  unique_names (fst st) -> unique_names (fst (gather_definition st d)).
Proof.
  unfold gather_definition, unique_names. intros Hnd.
  destruct (find_symbol (fst st) (sym_name (snd d))) eqn:Hf; simpl; [done |].
  rewrite map_app. apply NoDup_app. split; [done |]. split.
  - intros k Hk Hk'. simpl in Hk'. apply list_elem_of_singleton in Hk'. subst k.
    apply list_elem_of_fmap in Hk as (sym & Hkey & Hin).
    rewrite find_symbol_None in Hf. now apply (Hf sym).
  - apply NoDup_singleton.
Qed.

Lemma gather_fold_unique (defs : list (area_t * symbol_t))
    (st : list symbol_t * list error_t) :
  unique_names (fst st) -> unique_names (fst (fold_left gather_definition defs st)).
Proof.
  revert st. induction defs as [|d rest IH]; intros st Hnd; [done |].
  simpl. apply IH. now apply gather_definition_unique.
Qed.

Lemma filter_snoc {A} (P : A -> Prop) `{!forall x, Decision (P x)} (l : list A) (x : A) :
  filter P (l ++ [x]) = if decide (P x) then filter P l ++ [x] else filter P l.
Proof.
  rewrite filter_app. destruct (decide (P x)) as [Hx | Hx].
  - now rewrite (filter_cons_True P x []).
  - rewrite (filter_cons_False P x []) by done. apply app_nil_r.
Qed.

(** What gathering does to the entries and the diagnostics of one name:
    while the table holds no entry of that name the first definition is
    inserted, and every later one is reported. *)
Lemma gather_fold_name (name : string) (defs : list (area_t * symbol_t))
    (st : list symbol_t * list error_t) :
  let P := fun sym => sym_key sym = lowercase name in
  let D := filter (fun d => sym_key (snd d) = lowercase name) defs in
  let n := (1 - length (filter P (fst st)))%nat in
  filter P (fst (fold_left gather_definition defs st))
    = filter P (fst st) ++ take n (map snd D)
  /\ filter (reports_duplicate_of name) (snd (fold_left gather_definition defs st))
    = filter (reports_duplicate_of name) (snd st) ++ map duplicate_error (drop n D).
Proof.
  revert st. induction defs as [|d rest IH]; intros [symbols errors]; simpl.
  - rewrite filter_nil, take_nil, drop_nil. simpl. now rewrite !app_nil_r.
  - specialize (IH (gather_definition (symbols, errors) d)). simpl in IH.
    destruct IH as [IHs IHe]. rewrite IHs, IHe. clear IHs IHe.
    unfold gather_definition. simpl.
    assert (Hrep : reports_duplicate_of name (duplicate_error d)
                   <-> sym_key (snd d) = lowercase name).
    { unfold reports_duplicate_of, duplicate_error, sym_key. simpl.
      split; [intros [_ [= ->]]; done | intros ->; done]. }
    pose proof (find_symbol_None_filter symbols (sym_name (snd d))) as Hnone.
    destruct (decide (sym_key (snd d) = lowercase name)) as [Hd | Hd].
    + rewrite (filter_cons_True _ d) by done.
      fold (sym_key (snd d)) in Hnone. rewrite Hd in Hnone.
      destruct (find_symbol symbols (sym_name (snd d))) eqn:Hf; simpl.
      * destruct (filter (fun sym => sym_key sym = lowercase name) symbols)
          as [|x l] eqn:Hfl.
        { destruct Hnone as [_ Hnone]. discriminate Hnone. reflexivity. }
        simpl. replace (1 - S (length l))%nat with 0%nat by lia.
        rewrite !take_0, !drop_0. split; [done |].
        rewrite filter_snoc. rewrite decide_True by now apply Hrep.
        now rewrite <- app_assoc.
      * destruct Hnone as [Hnone _]. specialize (Hnone eq_refl).
        rewrite filter_snoc, decide_True by done. rewrite Hnone. simpl.
        done.
    + rewrite (filter_cons_False _ d) by done.
      destruct (find_symbol symbols (sym_name (snd d))) eqn:Hf; simpl.
      * split; [done |]. rewrite filter_snoc.
        rewrite decide_False; [done | now rewrite Hrep].
      * rewrite filter_snoc, decide_False by done. done.
Qed.

Lemma gather_all_unique (areas : list area_t) :
  unique_names (fst (gather_all areas [] [])).
Proof.
  rewrite gather_all_fold. apply gather_fold_unique. apply NoDup_nil_2.
Qed.

(** C9. Lookup in the linker's symbol table is case-insensitive: for every
    symbol [sym] stored in the table the second loop of [link_objects]
    builds, [find_symbol] called with any name that differs from the
    stored name only in letter case returns [sym] itself (hence its
    value); and [find_symbol] returns [NULL] only when no entry matches the
    name case-insensitively. *)
Theorem find_symbol_case_insensitive (areas : list area_t) (name : string) :
  let table := fst (gather_all areas [] []) in
  (forall sym, sym ∈ table -> same_name name (sym_name sym) ->
               find_symbol table name = Some sym)
  /\ (find_symbol table name = None
      <-> forall sym, sym ∈ table -> ~ same_name name (sym_name sym)).
Proof.
  intros table. split.
  - intros sym Hin Hsame. apply find_symbol_unique; [| done |].
    + apply gather_all_unique.
    + unfold sym_key. symmetry. exact Hsame.
  - rewrite find_symbol_None. unfold sym_key, same_name.
    split; intros H sym Hin Heq; apply (H sym Hin); congruence.
Qed.

Lemma find_symbol_case_insensitive_witness :
  find_symbol (fst (gather_all [area_Foo] [] [])) "FOO"
  = Some (mk_symbol SYMBOL_LABEL "Foo" 0x1234 0 0).
Proof.
  apply (proj1 (find_symbol_case_insensitive [area_Foo] "FOO")).
  - vm_compute. left.
  - reflexivity.
Defined.

(** C5. When a name is defined in two areas (first as [s1] in area [a],
    later as [s2] in area [b], and nowhere else), gathering reports
    exactly one DuplicateSymbol diagnostic for it, carrying the name and
    the defining address of the later definition; the table keeps the
    first definition [s1] with its value and never receives [s2]; and no
    name occurs twice in the final table. *)
Theorem gather_duplicate_symbol (areas : list area_t) (name : string)
    (a b : area_t) (s1 s2 : symbol_t) :
  filter (fun d => sym_key (snd d) = lowercase name) (definitions areas)
    = [(a, s1); (b, s2)] ->
  let table := fst (gather_all areas [] []) in
  let errors := snd (gather_all areas [] []) in
  filter (reports_duplicate_of name) errors
    = [mk_error ERROR_DUPLICATE_SYMBOL (area_name b) (sym_defined_address s2)
                (Some (sym_name s2))]
  /\ filter (fun sym => sym_key sym = lowercase name) table = [s1]
  /\ find_symbol table name = Some s1
  /\ unique_names table.
Proof.
  intros Hdefs table errors.
  pose proof (gather_fold_name name (definitions areas) ([], [])) as [Ht He].
  simpl in Ht, He. rewrite Hdefs in Ht, He. simpl in Ht, He.
  assert (Hu : unique_names table) by apply gather_all_unique.
  assert (Hfilter : filter (fun sym => sym_key sym = lowercase name) table = [s1]).
  { unfold table. rewrite gather_all_fold. exact Ht. }
  split; [| split; [| split]]; try done.
  - unfold errors. rewrite gather_all_fold. exact He.
  - assert (Hin : s1 ∈ filter (fun sym => sym_key sym = lowercase name) table)
      by (rewrite Hfilter; left).
    apply list_elem_of_filter in Hin as [Hkey Hin].
    now apply find_symbol_unique.
Qed.

Lemma gather_duplicate_symbol_witness :
  filter (reports_duplicate_of "bar") (snd (gather_all [area_bar1; area_bar2] [] []))
    = [mk_error ERROR_DUPLICATE_SYMBOL "DATA" 0x22 (Some "BAR")]
  /\ find_symbol (fst (gather_all [area_bar1; area_bar2] [] [])) "bar"
     = Some (mk_symbol SYMBOL_LABEL "bar" 1 0x10 0).
Proof.
  pose proof (gather_duplicate_symbol [area_bar1; area_bar2] "bar"
                area_bar1 area_bar2
                (mk_symbol SYMBOL_LABEL "bar" 1 0x10 0)
                (mk_symbol SYMBOL_LABEL "BAR" 2 0x22 0) eq_refl) as H.
  simpl in H. destruct H as (He & _ & Hf & _). split; [exact He | exact Hf].
Defined.

(** ** Masks and bits *)

Ltac cases_on_comparisons :=
  repeat match goal with
         | |- context [(?a <? ?b)%Z] => destruct (Z.ltb_spec a b)
         | |- context [(?a <=? ?b)%Z] => destruct (Z.leb_spec a b)
         | |- context [(?a =? ?b)%Z] => destruct (Z.eqb_spec a b)
         end;
  simpl; try reflexivity; try lia.

Lemma wrap64_range (z : Z) : 0 <= wrap64 z < 2 ^ 64.
Proof. unfold wrap64. apply Z.mod_pos_bound. lia. Qed.

Lemma mask_step (k : Z) :
  1 <= k <= 64 ->
  Z.lor (wrap64 (Z.shiftl (Z.ones k) 1)) 1 = Z.ones (Z.min (k + 1) 64).
Proof.
  intros Hk. apply Z.bits_inj'. intros i Hi.
  change 1 with (Z.ones 1) at 2.
  unfold wrap64.
  rewrite Z.lor_spec, Z.testbit_mod_pow2, Z.shiftl_spec, !Z.testbit_ones by lia.
  cases_on_comparisons.
Qed.

Lemma mask_loop_ones (n : nat) (k : Z) :
  1 <= k <= 64 ->
  mask_loop n (Z.ones k) = Z.ones (Z.min (k + Z.of_nat n) 64).
Proof.
  revert k. induction n as [|n IH]; intros k Hk.
  - simpl. f_equal. lia.
  - cbn [mask_loop]. rewrite mask_step by lia. rewrite IH by lia. f_equal. lia.
Qed.

Lemma width_mask_ones (width : Z) :
  1 <= width -> width_mask width = Z.ones (Z.min width 64).
Proof.
  intros Hw. unfold width_mask. change 1 with (Z.ones 1) at 2.
  rewrite mask_loop_ones by lia. f_equal. lia.
Qed.

Lemma land_width_mask (width v : Z) :
  1 <= width -> 0 <= v < 2 ^ 64 ->
  Z.land v (width_mask width) = v mod 2 ^ width.
Proof.
  intros Hw Hv. rewrite width_mask_ones, Z.land_ones by lia.
  destruct (Z.le_gt_cases width 64) as [Hle | Hgt].
  - now rewrite Z.min_l.
  - rewrite Z.min_r by lia. rewrite !Z.mod_small; try lia.
    split; [lia |]. apply Z.lt_le_trans with (2 ^ 64); [lia |].
    apply Z.pow_le_mono_r; lia.
Qed.

Lemma bits_beyond_iff (width x : Z) :
  0 <= width -> 0 <= x < 2 ^ 64 ->
  bits_beyond width x <-> 2 ^ width <= x.
Proof.
  intros Hw Hx. split.
  - intros (i & Hi & Hbit).
    destruct (Z.lt_ge_cases x (2 ^ width)) as [Hlt | Hge]; [| done].
    rewrite <- (Z.mod_small x (2 ^ width)) in Hbit by lia.
    rewrite Z.testbit_mod_pow2 in Hbit by lia.
    destruct (Z.ltb_spec i width); [lia | discriminate].
  - intros Hge.
    assert (Hpos : 0 < x) by (pose proof (Z.pow_pos_nonneg 2 width); lia).
    exists (Z.log2 x). split; [split |].
    + now apply Z.log2_le_pow2.
    + apply Z.log2_lt_pow2; lia.
    + now apply Z.bit_log2.
Qed.

Lemma truncated_absolute_spec (width result : Z) :
  1 <= width -> 0 <= result < 2 ^ 64 ->
  truncated_absolute width result (width_mask width) = true
  <-> bits_beyond width result /\ bits_beyond width (not64 result).
Proof.
  intros Hw Hr. unfold truncated_absolute.
  rewrite land_width_mask by lia.
  pose proof (wrap64_range (Z.lnot result)) as Hn. fold (not64 result) in Hn.
  rewrite andb_true_iff, !negb_true_iff, !Z.eqb_neq.
  rewrite !bits_beyond_iff by lia.
  pose proof (Z.pow_pos_nonneg 2 width ltac:(lia) ltac:(lia)) as Hp.
  assert (H1 : result mod 2 ^ width <> result <-> 2 ^ width <= result).
  { split.
    - intros Hne. destruct (Z.lt_ge_cases result (2 ^ width)); [| done].
      exfalso. apply Hne. apply Z.mod_small. lia.
    - intros Hge Heq. pose proof (Z.mod_pos_bound result (2 ^ width) Hp). lia. }
  assert (H2 : Z.shiftr (not64 result) width <> 0 <-> 2 ^ width <= not64 result).
  { rewrite Z.shiftr_div_pow2 by lia. split.
    - intros Hne. destruct (Z.lt_ge_cases (not64 result) (2 ^ width)); [| done].
      exfalso. apply Hne. apply Z.div_small. lia.
    - intros Hge Heq. apply Z.div_small_iff in Heq; lia. }
  now rewrite H1, H2.
Qed.

(** ** The patch loop *)

Lemma length_patch_loop (n : nat) (j address result : Z) (data : list Z) :
  length (patch_loop n j address result data) = length data.
Proof.
  revert j result data. induction n as [|n IH]; intros j result data; simpl.
  - reflexivity.
  - rewrite IH. apply length_alter.
Qed.

(** Byte [k] of the buffer after the loop: the rounds [j], [j+1], ... OR
    successive bytes of [result] into the bytes from [address + j] on. *)
Lemma patch_loop_lookup (n : nat) (j address result : Z) (data : list Z) (k : nat) :
  0 <= address + j ->
  patch_loop n j address result data !! k
  = if decide (Z.to_nat (address + j) <= k < Z.to_nat (address + j) + n)%nat
    then (fun b => Z.lor b (Z.land (Z.shiftr result
                                     (8 * Z.of_nat (k - Z.to_nat (address + j)))) 255))
           <$> data !! k
    else data !! k.
Proof.
  revert j result data. induction n as [|n IH]; intros j result data Hj.
  - simpl. rewrite decide_False by lia. reflexivity.
  - cbn [patch_loop]. rewrite IH by lia.
    replace (Z.to_nat (address + (j + 1))) with (S (Z.to_nat (address + j))) by lia.
    set (idx := Z.to_nat (address + j)).
    destruct (decide (idx = k)) as [-> | Hne].
    + rewrite decide_False by lia. rewrite decide_True by lia.
      rewrite list_lookup_alter_eq. rewrite Nat.sub_diag. simpl.
      now rewrite Z.shiftr_0_r.
    + rewrite list_lookup_alter_ne by done.
      destruct (decide (S idx <= k < S idx + n)%nat) as [Hin | Hout].
      * rewrite decide_True by lia. f_equal.
        rewrite Z.shiftr_shiftr by lia.
        replace (8 + 8 * Z.of_nat (k - S idx)) with (8 * Z.of_nat (k - idx)) by lia.
        reflexivity.
      * rewrite decide_False by lia. reflexivity.
Qed.

(** Only the low [8 * n] bits of the value reach the buffer. *)
Lemma patch_loop_low_bits (n : nat) (j address result : Z) (data : list Z) :
  patch_loop n j address result data
  = patch_loop n j address (result mod 2 ^ (8 * Z.of_nat n)) data.
Proof.
  revert j result data. induction n as [|n IH]; intros j result data.
  - reflexivity.
  - cbn [patch_loop].
    assert (Hlow : Z.land (result mod 2 ^ (8 * Z.of_nat (S n))) 255 = Z.land result 255).
    { apply Z.bits_inj'. intros i Hi. change 255 with (Z.ones 8).
      rewrite !Z.land_spec, Z.testbit_mod_pow2, Z.testbit_ones by lia.
      cases_on_comparisons. }
    assert (Hhigh : Z.shiftr (result mod 2 ^ (8 * Z.of_nat (S n))) 8 mod 2 ^ (8 * Z.of_nat n)
                    = Z.shiftr result 8 mod 2 ^ (8 * Z.of_nat n)).
    { apply Z.bits_inj'. intros i Hi.
      rewrite !Z.testbit_mod_pow2, !Z.shiftr_spec, Z.testbit_mod_pow2 by lia.
      cases_on_comparisons. }
    rewrite Hlow.
    rewrite (IH _ (Z.shiftr result 8)), (IH _ (Z.shiftr (result mod _) 8)).
    now rewrite Hhigh.
Qed.

Lemma patch_no_round (width address result : Z) (data : list Z) :
  width < 8 -> patch width address result data = data.
Proof.
  intros Hw. unfold patch.
  replace (Z.to_nat (Z.quot width 8)) with 0%nat; [reflexivity |].
  destruct (Z.lt_ge_cases width 0) as [Hneg | Hpos].
  - pose proof (Z.quot_pos (- width) 8 ltac:(lia) ltac:(lia)) as Hq.
    rewrite Z.quot_opp_l in Hq by lia. lia.
  - rewrite Z.quot_small by lia. reflexivity.
Qed.

(** ** One round of the resolver *)

Lemma list_del_list_add {A} (l : list A) (x : A) :
  list_del (list_add l x) (Z.of_nat (length (list_add l x)) - 1) = l.
Proof.
  unfold list_del, list_add. rewrite length_app. simpl.
  destruct (Z.ltb_spec (Z.of_nat (length l + 1) - 1) 0) as [Hlt | Hge]; [lia |].
  replace (Z.to_nat (Z.of_nat (length l + 1) - 1)) with (length l) by lia.
  rewrite delete_middle. apply app_nil_r.
Qed.

Lemma resolve_immediate_symbols (area : area_t) (imm : late_immediate_t)
    (st : resolve_state) :
  rs_symbols (snd (resolve_immediate area imm st)) = rs_symbols st.
Proof.
  unfold resolve_immediate.
  destruct (ev_error _); simpl; apply list_del_list_add.
Qed.

Lemma resolve_loop_symbols (area : area_t) (imms : list late_immediate_t)
    (st : resolve_state) :
  rs_symbols (snd (resolve_loop area imms st)) = rs_symbols st.
Proof.
  revert st. induction imms as [|imm rest IH]; intros st; simpl; [reflexivity |].
  destruct (resolve_immediate area imm st) as [imm' st'] eqn:Hone.
  specialize (IH st').
  destruct (resolve_loop area rest st') as [rest' st''].
  simpl in *. rewrite IH.
  change st' with (snd (imm', st')). rewrite <- Hone.
  apply resolve_immediate_symbols.
Qed.

Lemma resolve_immediate_values_symbols (symbols : list symbol_t)
    (area : area_t) (errors : list error_t) :
  fst (fst (resolve_immediate_values symbols area errors)) = symbols.
Proof.
  unfold resolve_immediate_values.
  pose proof (resolve_loop_symbols area (late_immediates area)
                (mk_rs symbols (data area) errors)) as H.
  destruct (resolve_loop _ _ _) as [imms st]. exact H.
Qed.

(** C8. [resolve_immediate_values] hands the symbol list back exactly as
    it received it (same entries, same order, same values): in every
    round, whichever of the three outcomes the evaluation has (success,
    unknown symbol, malformed expression), the entry [$] added before the
    evaluation is gone again after it. *)
Theorem resolve_immediate_values_keeps_symbols (symbols : list symbol_t)
    (area : area_t) (errors : list error_t) :
  fst (fst (resolve_immediate_values symbols area errors)) = symbols
  /\ forall imm st, rs_symbols (snd (resolve_immediate area imm st)) = rs_symbols st.
Proof.
  split.
  - apply resolve_immediate_values_symbols.
  - intros imm st. apply resolve_immediate_symbols.
Qed.

Lemma resolved_value_range (area : area_t) (imm : late_immediate_t)
    (symbols : list symbol_t) :
  0 <= resolved_value area imm symbols < 2 ^ 64.
Proof.
  unfold resolved_value, evaluation_of, evaluate_expression. simpl.
  destruct (decide _); apply wrap64_range.
Qed.

Lemma resolve_immediate_ok (area : area_t) (imm : late_immediate_t)
    (st : resolve_state) :
  ev_error (evaluation_of area imm (rs_symbols st)) = EXPRESSION_OK ->
  resolve_immediate area imm st
  = (rebase_immediate area imm,
     mk_rs (rs_symbols st)
       (patch (imm_width imm) (imm_address imm)
          (Z.land (resolved_value area imm (rs_symbols st)) (width_mask (imm_width imm)))
          (rs_data st))
       (if value_truncated (imm_type imm) (imm_width imm)
             (resolved_value area imm (rs_symbols st)) (width_mask (imm_width imm))
        then rs_errors st ++ [resolver_error ERROR_VALUE_TRUNCATED area imm None]
        else rs_errors st)).
Proof.
  intros Hok. unfold resolved_value. unfold evaluation_of in *.
  unfold resolve_immediate. cbv zeta.
  change (imm_expression (rebase_immediate area imm)) with (imm_expression imm).
  rewrite Hok, list_del_list_add. reflexivity.
Qed.

Lemma resolved_data_lookup (width address value : Z) (data : list Z) (j : Z) :
  0 <= width -> 0 <= address -> 0 <= j < width / 8 ->
  patch width address value data !! Z.to_nat (address + j)
  = (fun b => Z.lor b (byte_of value j)) <$> data !! Z.to_nat (address + j).
Proof.
  intros Hw Ha Hj. unfold patch. rewrite patch_loop_lookup by lia.
  rewrite Z.quot_div_nonneg by lia.
  rewrite decide_True by lia. unfold byte_of.
  replace (Z.of_nat (Z.to_nat (address + j) - Z.to_nat (address + 0))) with j by lia.
  reflexivity.
Qed.

Lemma resolved_data_elsewhere (width address value : Z) (data : list Z) (k : nat) :
  0 <= width -> 0 <= address ->
  ~ (address <= Z.of_nat k < address + width / 8) ->
  patch width address value data !! k = data !! k.
Proof.
  intros Hw Ha Hk. unfold patch. rewrite patch_loop_lookup by lia.
  rewrite Z.quot_div_nonneg by lia.
  rewrite decide_False; [reflexivity |].
  pose proof (Z.div_pos width 8 Hw ltac:(lia)). lia.
Qed.

(** C7 (as amended). For an absolute immediate that evaluates successfully
    to [result], a TruncatedValue diagnostic is reported if and only if
    [result] has a bit set at a position from [width] up and its bitwise
    complement has one too; in both cases the [width / 8] low bytes of
    [result] masked to [width] bits are OR-ed into the buffer, least
    significant byte first, from the immediate's offset on, and no other
    byte of the buffer changes: the bits of the masked value from
    [8 * (width / 8)] up are not written. *)
Theorem absolute_truncation (area : area_t) (imm : late_immediate_t)
    (st : resolve_state) :
  imm_type imm = IMM_TYPE_ABSOLUTE ->
  1 <= imm_width imm -> 0 <= imm_address imm ->
  ev_error (evaluation_of area imm (rs_symbols st)) = EXPRESSION_OK ->
  let result := ev_result (evaluation_of area imm (rs_symbols st)) in
  let st' := snd (resolve_immediate area imm st) in
  let out_of_range :=
    bits_beyond (imm_width imm) result /\ bits_beyond (imm_width imm) (not64 result) in
  (out_of_range ->
   rs_errors st' = rs_errors st ++ [resolver_error ERROR_VALUE_TRUNCATED area imm None])
  /\ (~ out_of_range -> rs_errors st' = rs_errors st)
  /\ (forall j, 0 <= j < imm_width imm / 8 ->
        rs_data st' !! Z.to_nat (imm_address imm + j)
        = (fun b => Z.lor b (byte_of (result mod 2 ^ imm_width imm) j))
            <$> rs_data st !! Z.to_nat (imm_address imm + j))
  /\ (forall k : nat,
        ~ (imm_address imm <= Z.of_nat k < imm_address imm + imm_width imm / 8) ->
        rs_data st' !! k = rs_data st !! k).
Proof.
  intros Habs Hw Ha Hok result st' out_of_range.
  unfold st'. rewrite resolve_immediate_ok by done. simpl.
  assert (Hres : resolved_value area imm (rs_symbols st) = result).
  { unfold resolved_value. rewrite Habs. now rewrite decide_False. }
  rewrite Hres.
  assert (Hrange : 0 <= result < 2 ^ 64).
  { rewrite <- Hres. apply resolved_value_range. }
  assert (Htest : value_truncated (imm_type imm) (imm_width imm) result
                    (width_mask (imm_width imm)) = true <-> out_of_range).
  { unfold value_truncated. rewrite Habs, decide_False by done.
    now apply truncated_absolute_spec. }
  rewrite land_width_mask by lia.
  split; [| split; [| split]].
  - intros Hout. apply Htest in Hout. now rewrite Hout.
  - intros Hin. destruct (value_truncated _ _ _ _); [| reflexivity].
    exfalso. apply Hin. now apply Htest.
  - intros j Hj. apply resolved_data_lookup; lia.
  - intros k Hk. apply resolved_data_elsewhere; lia.
Qed.

Lemma absolute_truncation_witness :
  rs_errors (snd (resolve_immediate (area_abs16 0x12345)
                    (mk_imm (expr_number 0x12345) 16 1 0 0 IMM_TYPE_ABSOLUTE)
                    (mk_rs [] [0x21; 0; 0] [])))
  = [mk_error ERROR_VALUE_TRUNCATED "CODE" 0 None].
Proof.
  apply (proj1 (absolute_truncation (area_abs16 0x12345)
                  (mk_imm (expr_number 0x12345) 16 1 0 0 IMM_TYPE_ABSOLUTE)
                  (mk_rs [] [0x21; 0; 0] [])
                  eq_refl ltac:(simpl; lia) ltac:(simpl; lia) eq_refl)).
  split; [exists 16 | exists 17]; (split; [simpl; lia | reflexivity]).
Defined.

(** C7, counterexample. An absolute immediate of width 12 and value 0xABC
    patched into zero bytes: no diagnostic, and the buffer receives the
    one byte 0xBC; the value masked to 12 bits, 0xABC, is not what the
    buffer holds. *)
Lemma absolute_write_counterexample :
  let st' := snd (resolve_immediate area_12bit imm_12bit (mk_rs [] [0x21; 0; 0] [])) in
  rs_errors st' = []
  /\ rs_data st' = [0x21; 0xBC; 0]
  /\ le_value (drop 1 (rs_data st')) <> 0xABC mod 2 ^ 12.
Proof.
  cbv zeta. split; [reflexivity | split; [reflexivity |]].
  vm_compute. intros H. discriminate H.
Qed.

(** C10. A successfully evaluated immediate of width [width] has exactly
    [width / 8] bytes patched: the buffer keeps its length, every byte
    outside the [width / 8] bytes at the immediate's offset is untouched,
    byte [j] of the masked value is OR-ed into the byte at offset + [j];
    hence a width below 8 patches nothing, and the bits of the masked
    value from [8 * (width / 8)] up never reach the buffer. *)
Theorem patched_bytes (area : area_t) (imm : late_immediate_t)
    (st : resolve_state) :
  1 <= imm_width imm -> 0 <= imm_address imm ->
  ev_error (evaluation_of area imm (rs_symbols st)) = EXPRESSION_OK ->
  let width := imm_width imm in
  let masked := resolved_value area imm (rs_symbols st) mod 2 ^ width in
  let st' := snd (resolve_immediate area imm st) in
  length (rs_data st') = length (rs_data st)
  /\ (forall k : nat,
        ~ (imm_address imm <= Z.of_nat k < imm_address imm + width / 8) ->
        rs_data st' !! k = rs_data st !! k)
  /\ (forall j, 0 <= j < width / 8 ->
        rs_data st' !! Z.to_nat (imm_address imm + j)
        = (fun b => Z.lor b (byte_of masked j))
            <$> rs_data st !! Z.to_nat (imm_address imm + j))
  /\ (width < 8 -> rs_data st' = rs_data st)
  /\ rs_data st'
     = patch width (imm_address imm) (masked mod 2 ^ (8 * (width / 8))) (rs_data st).
Proof.
  intros Hw Ha Hok width masked st'.
  unfold st'. rewrite resolve_immediate_ok by done. simpl.
  rewrite land_width_mask by (try apply resolved_value_range; lia).
  fold width. fold masked.
  split; [| split; [| split; [| split]]].
  - apply length_patch_loop.
  - intros k Hk. apply resolved_data_elsewhere; lia.
  - intros j Hj. apply resolved_data_lookup; lia.
  - intros Hlt. now apply patch_no_round.
  - unfold patch. rewrite patch_loop_low_bits.
    rewrite Z.quot_div_nonneg by lia.
    replace (Z.of_nat (Z.to_nat (width / 8))) with (width / 8);
      [reflexivity |].
    pose proof (Z.div_pos width 8 ltac:(lia) ltac:(lia)). lia.
Qed.

Lemma patched_bytes_witness :
  rs_data (snd (resolve_immediate (mk_area "CODE" [imm_bit3] [] [0xCB; 0x47] 0)
                  imm_bit3 (mk_rs [] [0xCB; 0x47] [])))
  = [0xCB; 0x47].
Proof.
  apply (proj1 (proj2 (proj2 (proj2
           (patched_bytes (mk_area "CODE" [imm_bit3] [] [0xCB; 0x47] 0)
              imm_bit3 (mk_rs [] [0xCB; 0x47] [])
              ltac:(simpl; lia) ltac:(simpl; lia) eq_refl))))).
  simpl. lia.
Defined.

(** ** Placement *)

Lemma alter_middle {A} (f : A -> A) (l1 l2 : list A) (x : A) :
  alter f (length l1) (l1 ++ x :: l2) = l1 ++ f x :: l2.
Proof.
  rewrite <- (Nat.add_0_r (length l1)). now rewrite alter_app_r.
Qed.

Lemma place_loop_plain (settings : linker_settings_t) (relocation_table : option nat)
    (done todo : list area_t) (address : Z) :
  automatic_relocation settings = false ->
  place_loop settings relocation_table (length todo) (length done) (done ++ todo) address
  = (done ++ laid_out address todo, end_address address todo).
Proof.
  intros Hoff. revert done address.
  induction todo as [|area rest IH]; intros done address.
  - reflexivity.
  - cbn [place_loop length]. rewrite Hoff.
    rewrite alter_middle, list_lookup_middle by done.
    replace (done ++ relocate_area area address :: rest)
      with ((done ++ [relocate_area area address]) ++ rest)
      by now rewrite <- app_assoc.
    replace (S (length done)) with (length (done ++ [relocate_area area address]))
      by (rewrite length_app; simpl; lia).
    rewrite IH. rewrite <- app_assoc. reflexivity.
Qed.

Lemma uint16_bytes_little_endian (value : Z) :
  uint16_bytes (wrap16 (wrap64 value)) = little_endian_16 value.
Proof.
  unfold uint16_bytes, little_endian_16, wrap16, wrap64.
  assert (Hmod : value mod 2 ^ 64 mod 2 ^ 16 = value mod 2 ^ 16).
  { apply Z.bits_inj'. intros i Hi. rewrite !Z.testbit_mod_pow2 by lia.
    cases_on_comparisons. }
  rewrite Hmod.
  pose proof (Z.mod_pos_bound value (2 ^ 16) ltac:(lia)) as Hr.
  change 255 with (Z.ones 8). rewrite !Z.land_ones, Z.shiftr_div_pow2 by lia.
  f_equal. f_equal. apply Z.mod_small.
  split; [apply Z.div_pos; lia | apply Z.div_lt_upper_bound; lia].
Qed.

Lemma needs_relocation_spec (imm : late_immediate_t) :
  needs_relocation imm = bool_decide (is_relocated imm).
Proof.
  unfold needs_relocation.
  destruct (decide (is_relocated imm)) as [[Ht Ha] | Hn].
  - rewrite (bool_decide_eq_true_2 (is_relocated imm)) by done.
    rewrite Ht. rewrite bool_decide_eq_true_2 by done.
    destruct (Z.eqb_spec (imm_base_address imm) (imm_address imm)); [congruence | done].
  - rewrite (bool_decide_eq_false_2 (is_relocated imm)) by done.
    destruct (imm_type imm) eqn:Ht.
    + destruct (Z.eqb_spec (imm_base_address imm) (imm_address imm)) as [He | Hne].
      * apply andb_false_r.
      * exfalso. apply Hn. split; [done | congruence].
    + rewrite bool_decide_eq_false_2; [done | intros H; now apply H].
Qed.

Lemma append_to_area_append (area : area_t) (b1 b2 : list Z) :
  append_to_area (append_to_area area b1) b2 = append_to_area area (b1 ++ b2).
Proof. unfold append_to_area. simpl. now rewrite <- app_assoc. Qed.

Lemma append_to_area_nil (area : area_t) : append_to_area area [] = area.
Proof. destruct area. unfold append_to_area. simpl. now rewrite app_nil_r. Qed.

Lemma auto_relocate_loop_entries (area : area_t) (imms : list late_immediate_t)
    (relocation_table : area_t) :
  auto_relocate_loop area imms relocation_table
  = append_to_area relocation_table
      (flat_map (fun imm => little_endian_16 (imm_address imm + final_address area))
                (filter is_relocated imms)).
Proof.
  revert relocation_table. induction imms as [|imm rest IH]; intros relocation_table.
  - simpl. now rewrite append_to_area_nil.
  - cbn [auto_relocate_loop]. rewrite IH, needs_relocation_spec.
    destruct (decide (is_relocated imm)) as [Hr | Hr].
    + rewrite bool_decide_eq_true_2, filter_cons_True by done.
      rewrite uint16_bytes_little_endian, append_to_area_append. reflexivity.
    + rewrite bool_decide_eq_false_2, filter_cons_False by done. reflexivity.
Qed.

Lemma auto_relocate_area_entries (area relocation_table : area_t) :
  auto_relocate_area area relocation_table
  = append_to_area relocation_table (relocation_entries area).
Proof. apply auto_relocate_loop_entries. Qed.

Lemma place_loop_round (settings : linker_settings_t) (relocation_table : option nat)
    (n i : nat) (areas : list area_t) (address : Z) :
  place_loop settings relocation_table (S n) i areas address
  = let areas1 := alter (fun area => relocate_area area address) i areas in
    let areas2 :=
      if automatic_relocation settings then
        if decide (relocation_table = Some i) then
          alter (fun area => append_to_area area (uint16_bytes 0)) i areas1
        else
          match areas1 !! i, relocation_table with
          | Some area, Some r => alter (auto_relocate_area area) r areas1
          | _, _ => areas1
          end
      else areas1 in
    let address' :=
      match areas2 !! i with
      | Some area => wrap64 (address + data_length area)
      | None => address
      end in
    place_loop settings relocation_table n (S i) areas2 address'.
Proof. reflexivity. Qed.

(** Placement when the relocation table is the last area: the areas before
    it are laid out one after the other and add their entries to the
    table, which is placed last and then receives its terminator. *)
Lemma place_loop_table_last (settings : linker_settings_t)
    (done user : list area_t) (table : area_t) (address : Z) :
  automatic_relocation settings = true ->
  place_loop settings (Some (length done + length user)%nat)
    (S (length user)) (length done) (done ++ user ++ [table]) address
  = (done ++ laid_out address user
       ++ [append_to_area
             (relocate_area
                (append_to_area table
                   (concat (map relocation_entries (laid_out address user))))
                (end_address address user))
             (uint16_bytes 0)],
     wrap64 (end_address address user
             + data_length
                 (append_to_area
                    (append_to_area table
                       (concat (map relocation_entries (laid_out address user))))
                    (uint16_bytes 0)))).
Proof.
  intros Hon. revert done table address.
  induction user as [|area rest IH]; intros done table address.
  - cbn [length laid_out end_address map concat app].
    rewrite place_loop_round. cbv zeta. rewrite Hon.
    rewrite Nat.add_0_r. rewrite decide_True by done.
    rewrite !alter_middle. rewrite list_lookup_middle by done.
    rewrite append_to_area_nil. reflexivity.
  - cbn [length]. rewrite place_loop_round. cbv zeta. rewrite Hon.
    rewrite decide_False by (intros [= H]; lia).
    change (done ++ (area :: rest) ++ [table]) with (done ++ area :: (rest ++ [table])).
    rewrite alter_middle, list_lookup_middle by done.
    replace (done ++ relocate_area area address :: rest ++ [table])
      with ((done ++ relocate_area area address :: rest) ++ [table])
      by (rewrite <- app_assoc; reflexivity).
    replace (length done + S (length rest))%nat
      with (length (done ++ relocate_area area address :: rest))
      by (rewrite length_app; simpl; lia).
    rewrite alter_middle.
    replace ((done ++ relocate_area area address :: rest)
               ++ [auto_relocate_area (relocate_area area address) table])
      with (done ++ relocate_area area address
              :: (rest ++ [auto_relocate_area (relocate_area area address) table]))
      by (rewrite <- app_assoc; reflexivity).
    rewrite list_lookup_middle by done.
    replace (done ++ relocate_area area address
              :: (rest ++ [auto_relocate_area (relocate_area area address) table]))
      with ((done ++ [relocate_area area address]) ++ rest
              ++ [auto_relocate_area (relocate_area area address) table])
      by (rewrite <- !app_assoc; reflexivity).
    replace (length (done ++ relocate_area area address :: rest))
      with (length (done ++ [relocate_area area address]) + length rest)%nat
      by (rewrite !length_app; simpl; lia).
    replace (S (length done)) with (length (done ++ [relocate_area area address]))
      by (rewrite length_app; simpl; lia).
    change (data_length (relocate_area area address)) with (data_length area).
    rewrite IH. rewrite auto_relocate_area_entries.
    cbn [laid_out end_address map concat].
    rewrite !append_to_area_append. rewrite <- !app_assoc. reflexivity.
Qed.

(** Areas behind the ones still to place are not touched, provided the
    relocation table is not among them. *)
Lemma place_loop_frame (settings : linker_settings_t) (relocation_table : option nat)
    (n i : nat) (areas tail : list area_t) (address : Z) :
  (i + n)%nat = length areas ->
  (forall r, relocation_table = Some r -> (r < length areas)%nat) ->
  place_loop settings relocation_table (n + length tail) i (areas ++ tail) address
  = place_loop settings relocation_table (length tail) (i + n)
      (fst (place_loop settings relocation_table n i areas address) ++ tail)
      (snd (place_loop settings relocation_table n i areas address)).
Proof.
  revert i areas address. induction n as [|n IH]; intros i areas address Hlen Hrt.
  - simpl. now rewrite Nat.add_0_r.
  - change (S n + length tail)%nat with (S (n + length tail)).
    rewrite !place_loop_round. cbv zeta.
    assert (Hi : (i < length areas)%nat) by lia.
    rewrite (alter_app_l _ areas tail i Hi).
    assert (Hgo : forall areas2 : list area_t,
               length areas2 = length areas ->
               place_loop settings relocation_table (n + length tail) (S i)
                 (areas2 ++ tail)
                 match (areas2 ++ tail) !! i with
                 | Some area => wrap64 (address + data_length area)
                 | None => address
                 end
               = place_loop settings relocation_table (length tail) (i + S n)
                   (fst (place_loop settings relocation_table n (S i) areas2
                           match areas2 !! i with
                           | Some area => wrap64 (address + data_length area)
                           | None => address
                           end) ++ tail)
                   (snd (place_loop settings relocation_table n (S i) areas2
                           match areas2 !! i with
                           | Some area => wrap64 (address + data_length area)
                           | None => address
                           end))).
    { intros areas2 Hlen2. rewrite lookup_app_l by lia.
      rewrite IH; [| lia | intros r Hr; rewrite Hlen2; now apply Hrt].
      now replace (S i + n)%nat with (i + S n)%nat by lia. }
    destruct (automatic_relocation settings).
    + destruct (decide (relocation_table = Some i)).
      * rewrite alter_app_l by (rewrite length_alter; lia).
        apply Hgo. now rewrite !length_alter.
      * rewrite lookup_app_l by (rewrite length_alter; lia).
        destruct (alter _ i areas !! i) as [area|]; [| apply Hgo, length_alter].
        destruct relocation_table as [r|]; [| apply Hgo, length_alter].
        rewrite alter_app_l by (rewrite length_alter; now apply Hrt).
        apply Hgo. now rewrite !length_alter.
    + apply Hgo, length_alter.
Qed.

(** Areas without an immediate to relocate are placed one after the other
    and leave an earlier relocation table alone. *)
Lemma place_loop_no_entries (settings : linker_settings_t) (relocation_table : option nat)
    (done todo : list area_t) (address : Z) :
  (forall r, relocation_table = Some r -> (r < length done)%nat) ->
  Forall (fun area => filter is_relocated (late_immediates area) = []) todo ->
  place_loop settings relocation_table (length todo) (length done) (done ++ todo) address
  = (done ++ laid_out address todo, end_address address todo).
Proof.
  intros Hrt Hnone. revert done address Hrt.
  induction Hnone as [|area rest Harea Hrest IH]; intros done address Hrt.
  - reflexivity.
  - cbn [length]. rewrite place_loop_round. cbv zeta.
    rewrite alter_middle.
    assert (Hsame :
      (if automatic_relocation settings then
         if decide (relocation_table = Some (length done)) then
           alter (fun area0 => append_to_area area0 (uint16_bytes 0)) (length done)
             (done ++ relocate_area area address :: rest)
         else
           match (done ++ relocate_area area address :: rest) !! length done,
                 relocation_table with
           | Some area0, Some r =>
               alter (auto_relocate_area area0) r
                 (done ++ relocate_area area address :: rest)
           | _, _ => done ++ relocate_area area address :: rest
           end
       else done ++ relocate_area area address :: rest)
      = done ++ relocate_area area address :: rest).
    { destruct (automatic_relocation settings); [| reflexivity].
      destruct (decide (relocation_table = Some (length done))) as [He | Hne].
      - apply Hrt in He. lia.
      - rewrite list_lookup_middle by done.
        destruct relocation_table as [r|]; [| reflexivity].
        apply list_alter_id. intros table.
        rewrite auto_relocate_area_entries. unfold relocation_entries.
        cbn [late_immediates relocate_area]. rewrite Harea.
        apply append_to_area_nil. }
    rewrite Hsame. rewrite list_lookup_middle by done.
    change (data_length (relocate_area area address)) with (data_length area).
    replace (done ++ relocate_area area address :: rest)
      with ((done ++ [relocate_area area address]) ++ rest)
      by now rewrite <- app_assoc.
    replace (S (length done)) with (length (done ++ [relocate_area area address]))
      by (rewrite length_app; simpl; lia).
    rewrite IH.
    + rewrite <- app_assoc. reflexivity.
    + intros r Hr. rewrite length_app. apply Hrt in Hr. lia.
Qed.



Lemma contiguous_laid_out (address : Z) (areas : list area_t) :
  contiguous_from address (laid_out address areas).
Proof.
  revert address. induction areas as [|area rest IH]; intros address; simpl; [done |].
  split; [reflexivity | apply IH].
Qed.

Lemma end_address_laid_out (address : Z) (areas : list area_t) :
  end_address address (laid_out address areas) = end_address address areas.
Proof.
  revert address. induction areas as [|area rest IH]; intros address; simpl; [done |].
  apply IH.
Qed.

Lemma contiguous_app (address : Z) (l1 l2 : list area_t) :
  contiguous_from address l1 -> contiguous_from (end_address address l1) l2 ->
  contiguous_from address (l1 ++ l2).
Proof.
  revert address. induction l1 as [|area rest IH]; intros address H1 H2; simpl in *.
  - exact H2.
  - destruct H1 as [Ha Hrest]. split; [exact Ha | now apply IH].
Qed.

Lemma contiguous_first (address : Z) (areas : list area_t) (area : area_t) :
  contiguous_from address areas -> areas !! 0%nat = Some area ->
  final_address area = address.
Proof.
  destruct areas as [|a rest]; [discriminate |]. simpl. now intros [Ha _] [= <-].
Qed.

Lemma contiguous_next (address : Z) (areas : list area_t) (i : nat) (a b : area_t) :
  contiguous_from address areas ->
  areas !! i = Some a -> areas !! S i = Some b ->
  final_address b = wrap64 (final_address a + data_length a).
Proof.
  revert address i. induction areas as [|x rest IH]; intros address i Hc Ha Hb.
  - discriminate.
  - destruct Hc as [Hx Hrest]. destruct i as [|i].
    + simpl in Ha. injection Ha as ->. simpl in Hb.
      rewrite Hx. now apply (contiguous_first _ rest).
    + simpl in Ha, Hb. now apply (IH _ i Hrest).
Qed.

Lemma length_laid_out (address : Z) (areas : list area_t) :
  length (laid_out address areas) = length areas.
Proof.
  revert address. induction areas as [|area rest IH]; intros address; simpl; [done |].
  now rewrite IH.
Qed.

Lemma laid_out_names (address : Z) (areas : list area_t) :
  map area_name (laid_out address areas) = map area_name areas.
Proof.
  revert address. induction areas as [|area rest IH]; intros address; simpl; [done |].
  now rewrite IH.
Qed.

Lemma laid_out_data (address : Z) (areas : list area_t) :
  map data (laid_out address areas) = map data areas.
Proof.
  revert address. induction areas as [|area rest IH]; intros address; simpl; [done |].
  now rewrite IH.
Qed.

(** ** Resolution and emission *)

Lemma length_resolve_immediate (area : area_t) (imm : late_immediate_t)
    (st : resolve_state) :
  length (rs_data (snd (resolve_immediate area imm st))) = length (rs_data st).
Proof.
  unfold resolve_immediate. destruct (ev_error _); simpl; try reflexivity.
  apply length_patch_loop.
Qed.

Lemma length_resolve_loop (area : area_t) (imms : list late_immediate_t)
    (st : resolve_state) :
  length (rs_data (snd (resolve_loop area imms st))) = length (rs_data st).
Proof.
  revert st. induction imms as [|imm rest IH]; intros st; simpl; [reflexivity |].
  pose proof (length_resolve_immediate area imm st) as H1.
  destruct (resolve_immediate area imm st) as [imm' st'].
  specialize (IH st').
  destruct (resolve_loop area rest st') as [rest' st'']. simpl in *. lia.
Qed.

Lemma resolve_immediate_values_place (symbols : list symbol_t) (area : area_t)
    (errors : list error_t) :
  same_place area (snd (fst (resolve_immediate_values symbols area errors))).
Proof.
  unfold resolve_immediate_values, same_place.
  pose proof (length_resolve_loop area (late_immediates area)
                (mk_rs symbols (data area) errors)) as H.
  destruct (resolve_loop _ _ _) as [imms st]. simpl in *.
  unfold data_length. simpl. split; [done | split; [done | lia]].
Qed.

Lemma emit_loop_final (origin : Z) (areas : list area_t) (st : emit_state) :
  es_final (snd (emit_loop origin areas st))
  = es_final st ++ concat (map data (fst (emit_loop origin areas st))).
Proof.
  revert st. induction areas as [|area rest IH]; intros st; simpl.
  - now rewrite app_nil_r.
  - destruct (resolve_immediate_values _ area (es_errors st)) as [[symbols2 area'] errors'].
    specialize (IH (mk_es symbols2 errors' (es_final st ++ data area'))).
    destruct (emit_loop origin rest _) as [rest' st']. simpl in *.
    rewrite IH. now rewrite <- app_assoc.
Qed.

Lemma emit_loop_places (origin : Z) (areas : list area_t) (st : emit_state) :
  Forall2 same_place areas (fst (emit_loop origin areas st)).
Proof.
  revert st. induction areas as [|area rest IH]; intros st; simpl.
  - constructor.
  - pose proof (resolve_immediate_values_place
                  (if origin =? 0 then es_symbols st
                   else move_origin origin (es_symbols st)) area (es_errors st)) as Hp.
    destruct (resolve_immediate_values _ area (es_errors st)) as [[symbols2 area'] errors'].
    specialize (IH (mk_es symbols2 errors' (es_final st ++ data area'))).
    destruct (emit_loop origin rest _) as [rest' st']. simpl in *.
    now constructor.
Qed.


(** ** The whole link *)

Lemma link_objects_output (settings : linker_settings_t) (origin : Z)
    (relocation_table : option nat) (merged : list area_t) :
  let r := link_objects settings origin relocation_table merged in
  lr_output r = concat (map data (lr_areas r))
  /\ Forall2 same_place (place_areas settings relocation_table merged) (lr_areas r).
Proof.
  unfold link_objects.
  destruct (gather_all _ [] []) as [symbols errors].
  pose proof (emit_loop_final origin (place_areas settings relocation_table merged)
                (mk_es symbols errors [])) as Hf.
  pose proof (emit_loop_places origin (place_areas settings relocation_table merged)
                (mk_es symbols errors [])) as Hp.
  destruct (emit_loop _ _ _) as [areas st]. simpl in *. split; [exact Hf | exact Hp].
Qed.

Lemma place_areas_plain (settings : linker_settings_t) (relocation_table : option nat)
    (merged : list area_t) :
  automatic_relocation settings = false ->
  place_areas settings relocation_table merged = laid_out 0 merged.
Proof.
  intros Hoff. unfold place_areas.
  pose proof (place_loop_plain settings relocation_table [] merged 0 Hoff) as H.
  cbn [length app] in H. now rewrite H.
Qed.

Lemma place_areas_table (settings : linker_settings_t)
    (user : list area_t) (table : area_t) (rest : list area_t) :
  automatic_relocation settings = true ->
  Forall adds_no_entry rest ->
  let table' :=
    append_to_area
      (relocate_area
         (append_to_area table (concat (map relocation_entries (laid_out 0 user))))
         (end_address 0 user))
      (uint16_bytes 0) in
  place_areas settings (Some (length user)) (user ++ table :: rest)
  = laid_out 0 user
      ++ table' :: laid_out (wrap64 (end_address 0 user + data_length table')) rest.
Proof.
  intros Hon Hrest table'. unfold place_areas.
  replace (user ++ table :: rest) with ((user ++ [table]) ++ rest)
    by (rewrite <- app_assoc; reflexivity).
  rewrite (length_app (user ++ [table]) rest).
  rewrite place_loop_frame; cycle 1.
  { reflexivity. }
  { intros r [= <-]. rewrite length_app. simpl. lia. }
  rewrite length_app. cbn [length Nat.add].
  replace (length user + 1)%nat with (S (length user)) by lia.
  pose proof (place_loop_table_last settings [] user table 0 Hon) as H.
  cbn [length app Nat.add] in H. rewrite H. cbn [fst snd].
  replace (S (length user)) with (length (laid_out 0 user ++ [table'])).
  - rewrite place_loop_no_entries; [| | exact Hrest].
    + cbn [fst]. rewrite <- app_assoc. reflexivity.
    + intros r [= <-]. rewrite !length_app, length_laid_out. simpl. lia.
  - rewrite length_app, length_laid_out. simpl. lia.
Qed.

Lemma lookup_middle_ne {A} (l1 l2 : list A) (x y : A) (i : nat) :
  i <> length l1 -> (l1 ++ x :: l2) !! i = (l1 ++ y :: l2) !! i.
Proof.
  intros Hne. destruct (Nat.lt_ge_cases i (length l1)) as [Hlt | Hge].
  - now rewrite !lookup_app_l.
  - rewrite !lookup_app_r by done.
    destruct (i - length l1)%nat as [|k] eqn:Hk; [lia | reflexivity].
Qed.

(** Where the layout is linear. When automatic relocation is off, or no
    area placed after the relocation table adds an entry to it (so in
    particular when the table is the last merged area), placement keeps
    the areas in their
    input order, leaves the bytes of every area other than the relocation
    table as they are, puts the first area at 0 and every next area at the
    final address of the one before it plus that area's length (in the
    code's unsigned 64-bit arithmetic), so without alignment or padding;
    and the buffer handed to the output writer is the concatenation of the
    areas' buffers in that order, each of the size it was placed with. *)
Theorem placement_is_linear (settings : linker_settings_t) (origin : Z)
    (relocation_table : option nat) (merged : list area_t) :
  automatic_relocation settings = false
  \/ table_is_complete relocation_table merged ->
  let placed := place_areas settings relocation_table merged in
  let r := link_objects settings origin relocation_table merged in
  map area_name placed = map area_name merged
  /\ (forall i p m, relocation_table <> Some i ->
        placed !! i = Some p -> merged !! i = Some m -> data p = data m)
  /\ (forall a, placed !! 0%nat = Some a -> final_address a = 0)
  /\ (forall i a b, placed !! i = Some a -> placed !! S i = Some b ->
        final_address b = wrap64 (final_address a + data_length a))
  /\ lr_output r = concat (map data (lr_areas r))
  /\ Forall2 same_place placed (lr_areas r).
Proof.
  intros Hcase placed r.
  destruct (link_objects_output settings origin relocation_table merged) as [Hout Hsame].
  assert (Hplain : automatic_relocation settings = false ->
            map area_name placed = map area_name merged
            /\ map data placed = map data merged
            /\ contiguous_from 0 placed).
  { intros Hoff. unfold placed. rewrite place_areas_plain by done.
    split; [apply laid_out_names | split; [apply laid_out_data |]].
    apply contiguous_laid_out. }
  assert (Hshape : map area_name placed = map area_name merged
                   /\ (forall i, relocation_table <> Some i ->
                         map data placed !! i = map data merged !! i)
                   /\ contiguous_from 0 placed).
  { destruct (automatic_relocation settings) eqn:Hauto.
    - destruct Hcase as [Hoff | (user & table & rest & -> & -> & Hrest)];
        [discriminate |].
      unfold placed. rewrite place_areas_table by done.
      split; [| split].
      + rewrite !map_app. cbn [map]. now rewrite !laid_out_names.
      + intros i Hi. rewrite !map_app. cbn [map]. rewrite !laid_out_data.
        apply lookup_middle_ne. rewrite length_map. congruence.
      + apply contiguous_app; [apply contiguous_laid_out |].
        rewrite end_address_laid_out. split; [reflexivity |].
        apply contiguous_laid_out.
    - destruct (Hplain eq_refl) as (Hn & Hd & Hc).
      split; [exact Hn | split; [| exact Hc]]. intros i _. now rewrite Hd. }
  destruct Hshape as (Hnames & Hdata & Hcont).
  split; [exact Hnames | split; [| split; [| split; [| split]]]].
  - intros i p m Hi Hp Hm. specialize (Hdata i Hi).
    rewrite !list_lookup_fmap, Hp, Hm in Hdata. now injection Hdata.
  - intros a Ha. now apply (contiguous_first 0 placed).
  - intros i a b Ha Hb. now apply (contiguous_next 0 placed i).
  - exact Hout.
  - exact Hsame.
Qed.

Lemma placement_is_linear_witness :
  (automatic_relocation auto_on = false
   \/ table_is_complete (Some 1%nat) [call_area; table_area])
  /\ map area_name (place_areas auto_on (Some 1%nat) [call_area; table_area])
     = ["CODE"; "__scas_relocation_table"]
  /\ lr_output (link_objects auto_on 0 (Some 1%nat) [call_area; table_area])
     = concat (map data (lr_areas (link_objects auto_on 0 (Some 1%nat)
                                     [call_area; table_area]))).
Proof.
  assert (Hlast : automatic_relocation auto_on = false
                  \/ table_is_complete (Some 1%nat) [call_area; table_area]).
  { right. exists [call_area], table_area, []. repeat split. constructor. }
  split; [exact Hlast |].
  destruct (placement_is_linear auto_on 0 (Some 1%nat) [call_area; table_area] Hlast)
    as (Hnames & _ & _ & _ & Hout & _).
  split; [exact Hnames | exact Hout].
Defined.

(** C3, the code at the failing input. Automatic relocation on, the
    relocation table first and the three bytes [CD nn nn] with one
    relocated immediate after it.  The table is placed at 0 with its
    terminator and the running address becomes 2; the next area is placed
    at 2 and then appends its entry (offset 1 + 2 = 0x0003) to the table.
    So the table ends up 4 bytes long at address 0 while the next area
    has final address 2, not 0 + 4; in the image its bytes start at
    offset 4, and the entry 0x0003 points into the table. *)
Theorem table_first_breaks_layout :
  let placed := place_areas auto_on (Some 0%nat) [table_area; call_area] in
  let r := link_objects auto_on 0 (Some 0%nat) [table_area; call_area] in
  map area_name placed = ["__scas_relocation_table"; "CODE"]
  /\ map final_address placed = [0; 2]
  /\ map data_length placed = [4; 3]
  /\ lr_output r = [0x00; 0x00; 0x03; 0x00; 0xCD; 0x34; 0x12]
  /\ ~ (forall i a b, placed !! i = Some a -> placed !! S i = Some b ->
          final_address b = final_address a + data_length a).
Proof.
  cbv zeta. repeat split; try reflexivity.
  intros H. specialize (H 0%nat _ _ eq_refl eq_refl).
  vm_compute in H. discriminate H.
Qed.

(** C4 (as amended). Under automatic relocation, when no area placed
    after the relocation table adds an entry to it (so in particular when
    the table is the last merged area), placement appends to the table,
    in visiting order, the two bytes (low byte first) of offset + final
    address of the area, reduced modulo 2^16, for exactly the immediates
    that are absolute and whose patch offset differs from their base
    address, and then one terminator entry of two zero bytes; relative
    immediates add nothing.  In particular an absolute 16-bit immediate at
    offset 4 of an area placed at 0x100 gives the bytes 04 01 00 00. *)
Theorem relocation_table_contents (settings : linker_settings_t)
    (user : list area_t) (table : area_t) (rest : list area_t) :
  automatic_relocation settings = true ->
  Forall adds_no_entry rest ->
  let placed := place_areas settings (Some (length user)) (user ++ table :: rest) in
  (exists table',
      placed !! length user = Some table'
      /\ data table'
         = data table ++ concat (map relocation_entries (laid_out 0 user)) ++ [0; 0])
  /\ take (length user) placed = laid_out 0 user
  /\ (forall imm, imm_type imm = IMM_TYPE_RELATIVE -> needs_relocation imm = false)
  /\ map data (drop 2 (place_areas auto_on (Some 2%nat)
                         [pad_area 0x100; load_area; table_area]))
     = [[0x04; 0x01; 0x00; 0x00]].
Proof.
  intros Hon Hrest placed. unfold placed. rewrite place_areas_table by done.
  assert (Hlen : length (laid_out 0 user) = length user) by apply length_laid_out.
  split; [| split; [| split]].
  - eexists. split.
    + rewrite <- Hlen. apply list_lookup_middle. reflexivity.
    + simpl. now rewrite <- app_assoc.
  - rewrite <- Hlen. now rewrite take_app_length.
  - intros imm Hrel. unfold needs_relocation. rewrite Hrel.
    rewrite bool_decide_eq_false_2; [done | intros H; now apply H].
  - vm_compute. reflexivity.
Qed.

Lemma relocation_table_contents_witness :
  exists table',
    place_areas auto_on (Some 1%nat) [call_area; table_area] !! 1%nat = Some table'
    /\ data table' = [0x01; 0x00; 0x00; 0x00].
Proof.
  destruct (proj1 (relocation_table_contents auto_on [call_area] table_area []
                     eq_refl (Forall_nil_2 _)))
    as (table' & Hlook & Hdata).
  exists table'. split; [exact Hlook | exact Hdata].
Defined.

(** C4, counterexamples.  An area placed at 0x10000 with an immediate at
    offset 4: the entry holds 0x0004, not 0x10004.  And with the
    relocation table placed first, the terminator comes before the entry
    of the area that follows. *)
Lemma relocation_table_counterexample :
  (let placed := place_areas auto_on (Some 2%nat)
                   [pad_area 65536; load_area; table_area] in
   ~ (forall area imm table',
        placed !! 1%nat = Some area -> imm ∈ late_immediates area ->
        placed !! 2%nat = Some table' ->
        entry_value (data table') = imm_address imm + final_address area))
  /\ (let placed := place_areas auto_on (Some 0%nat) [table_area; call_area] in
      ~ (exists table',
           placed !! 0%nat = Some table'
           /\ data table'
              = concat (map relocation_entries (drop 1 placed)) ++ [0; 0])).
Proof.
  split.
  - intros placed H.
    specialize (H _ (mk_imm (expr_number 0x1234) 16 4 3 3 IMM_TYPE_ABSOLUTE) _
                  eq_refl ltac:(left) eq_refl).
    vm_compute in H. discriminate H.
  - intros placed (table' & Hlook & Hdata).
    vm_compute in Hlook. injection Hlook as <-.
    vm_compute in Hdata. discriminate Hdata.
Qed.

Lemma resolve_immediate_bad_symbol (area : area_t) (imm : late_immediate_t)
    (st : resolve_state) :
  ev_error (evaluation_of area imm (rs_symbols st)) = EXPRESSION_BAD_SYMBOL ->
  resolve_immediate area imm st
  = (rebase_immediate area imm,
     mk_rs (rs_symbols st) (rs_data st)
       (rs_errors st
          ++ [resolver_error ERROR_UNKNOWN_SYMBOL area imm
                (Some (ev_symbol (evaluation_of area imm (rs_symbols st))))])).
Proof.
  intros Hbad. unfold evaluation_of in *.
  unfold resolve_immediate. cbv zeta.
  change (imm_expression (rebase_immediate area imm)) with (imm_expression imm).
  rewrite Hbad, list_del_list_add. reflexivity.
Qed.

Lemma link_objects_length (settings : linker_settings_t) (origin : Z)
    (relocation_table : option nat) (merged : list area_t) :
  let r := link_objects settings origin relocation_table merged in
  Z.of_nat (length (lr_output r)) < 2 ^ 31 ->
  lr_output_length r = Z.of_nat (length (lr_output r)).
Proof.
  unfold link_objects.
  destruct (gather_all _ [] []) as [symbols errors].
  destruct (emit_loop _ _ _) as [areas st]. simpl.
  intros Hlt. unfold to_int. cbv zeta.
  rewrite Z.mod_small by lia.
  destruct (Z.ltb_spec (Z.of_nat (length (es_final st))) (2 ^ 31)); [reflexivity | lia].
Qed.

(** C6. When the evaluation of an immediate's expression fails on an
    unknown symbol, the round reports exactly one UnknownSymbol diagnostic
    with the failing name and the absolute instruction address, leaves the
    buffer as it is, and the loop goes on with the next immediate.  And
    whatever diagnostics a link collects, it hands the output writer the
    whole buffer: the concatenation of all areas' buffers, each of the
    size placement gave it (with the length of that buffer as long as it
    fits an [int]). *)
Theorem unknown_symbol_is_reported (area : area_t) (imm : late_immediate_t)
    (rest : list late_immediate_t) (st : resolve_state)
    (settings : linker_settings_t) (origin : Z) (relocation_table : option nat)
    (merged : list area_t) :
  (ev_error (evaluation_of area imm (rs_symbols st)) = EXPRESSION_BAD_SYMBOL ->
   let st1 :=
     mk_rs (rs_symbols st) (rs_data st)
       (rs_errors st
          ++ [resolver_error ERROR_UNKNOWN_SYMBOL area imm
                (Some (ev_symbol (evaluation_of area imm (rs_symbols st))))]) in
   resolve_loop area (imm :: rest) st
   = (rebase_immediate area imm :: fst (resolve_loop area rest st1),
      snd (resolve_loop area rest st1)))
  /\ (let r := link_objects settings origin relocation_table merged in
      lr_output r = concat (map data (lr_areas r))
      /\ Forall2 same_place (place_areas settings relocation_table merged) (lr_areas r)
      /\ (Z.of_nat (length (lr_output r)) < 2 ^ 31 ->
          lr_output_length r = Z.of_nat (length (lr_output r)))).
Proof.
  split.
  - intros Hbad st1. cbn [resolve_loop].
    rewrite resolve_immediate_bad_symbol by done. fold st1.
    now destruct (resolve_loop area rest st1).
  - cbv zeta. split; [| split].
    + apply link_objects_output.
    + apply link_objects_output.
    + apply link_objects_length.
Qed.

Lemma unknown_symbol_is_reported_witness :
  let st' := snd (resolve_loop area_foo [imm_foo; imm_after_foo]
                    (mk_rs [] (data area_foo) [])) in
  rs_errors st' = [mk_error ERROR_UNKNOWN_SYMBOL "CODE" 0x100 (Some "foo")]
  /\ rs_data st' = [0x2A; 0; 0; 0x3E; 0x12].
Proof.
  cbv zeta.
  rewrite (proj1 (unknown_symbol_is_reported area_foo imm_foo [imm_after_foo]
                    (mk_rs [] (data area_foo) []) auto_off 0 None []) eq_refl).
  split; reflexivity.
Defined.

(** ** The origin shift *)

Lemma move_origin_twice (a b : Z) (symbols : list symbol_t) :
  move_origin a (move_origin b symbols) = move_origin (b + a) symbols.
Proof.
  unfold move_origin. rewrite map_map. apply map_ext. intros sym.
  unfold move_symbol. simpl. f_equal. unfold wrap64.
  rewrite Zplus_mod_idemp_l. f_equal. lia.
Qed.



(** C2, the code at the failing input. Two merged areas, one symbol of
    value 0x10: linked with origin 0x8000 its final value is 0x10010, that
    is 0x10000 above the value 0x10 it has when linked without origin,
    not 0x8000; the first area is patched with 0x8010, the second with the
    low 16 bits of 0x10010, which is also reported as truncated. *)
Theorem origin_shift_compounds :
  map sym_value (lr_symbols (link_objects auto_off 0 None two_areas)) = [0x10]
  /\ map sym_value (lr_symbols (link_objects auto_off 0x8000 None two_areas)) = [0x10010]
  /\ lr_output (link_objects auto_off 0x8000 None two_areas)
     = [0x21; 0x10; 0x80; 0x10; 0x00]
  /\ lr_errors (link_objects auto_off 0x8000 None two_areas)
     = [mk_error ERROR_VALUE_TRUNCATED "DATA" 3 None].
Proof. vm_compute. repeat split. Qed.

(** ** The signed test, for 8 bits *)

Lemma land_high_bits (r : Z) :
  0 <= r < 2 ^ 64 -> Z.land r (not64 255) = r / 256 * 256.
Proof.
  intros Hr.
  assert (Hnot : not64 255 = Z.shiftl (Z.ones 56) 8) by reflexivity.
  rewrite Hnot.
  assert (Hbits : Z.land r (Z.shiftl (Z.ones 56) 8)
                  = Z.shiftl (Z.land (Z.shiftr r 8) (Z.ones 56)) 8).
  { apply Z.bits_inj'. intros i Hi.
    rewrite Z.land_spec, !Z.shiftl_spec, Z.land_spec by lia.
    destruct (Z.lt_ge_cases i 8) as [Hlt | Hge].
    - rewrite !(Z.testbit_neg_r _ (i - 8)) by lia. apply andb_false_r.
    - rewrite Z.shiftr_spec by lia. now replace (i - 8 + 8) with i by lia. }
  rewrite Hbits, Z.land_ones, Z.shiftr_div_pow2, Z.shiftl_mul_pow2 by lia.
  change (2 ^ 8) with 256. rewrite Z.mod_small; [reflexivity |].
  split; [apply Z.div_pos; lia | apply Z.div_lt_upper_bound; lia].
Qed.

Lemma bit_8_of_small_negative (r : Z) :
  2 ^ 64 - 256 <= r < 2 ^ 64 -> Z.land r (Z.shiftl 1 8) <> 0.
Proof.
  intros Hr Hz.
  assert (Hbit : Z.testbit r 8 = true).
  { apply Z.testbit_true; [lia |].
    assert (Hq : r / 2 ^ 8 = 2 ^ 56 - 1).
    { change (2 ^ 8) with 256.
      assert (2 ^ 56 - 1 <= r / 256) by (apply Z.div_le_lower_bound; lia).
      assert (r / 256 < 2 ^ 56) by (apply Z.div_lt_upper_bound; lia). lia. }
    rewrite Hq. reflexivity. }
  assert (Hland : Z.testbit (Z.land r (Z.shiftl 1 8)) 8 = true).
  { rewrite Z.land_spec, Hbit. reflexivity. }
  rewrite Hz in Hland. discriminate Hland.
Qed.

(** The test the code applies to an 8-bit relative value [r] (a
    [uint64_t]): it fires exactly from 128 up to, but excluding, the 256
    largest values, that is for differences outside -256 .. 127. *)
Lemma truncated_relative_8 (r : Z) :
  0 <= r < 2 ^ 64 ->
  truncated_relative 8 r (width_mask 8) = true <-> 128 <= r < 2 ^ 64 - 256.
Proof.
  intros Hr. unfold truncated_relative.
  change (width_mask 8) with 255. change (Z.shiftr 255 1) with (Z.ones 7).
  rewrite Z.land_ones by lia. rewrite land_high_bits by done.
  change (not64 255) with (2 ^ 64 - 256).
  destruct (Z.eqb_spec (r mod 2 ^ 7) r) as [Hsmall | Hbig]; simpl.
  - split; [discriminate |]. intros H.
    pose proof (Z.mod_pos_bound r (2 ^ 7) ltac:(lia)). lia.
  - assert (H128 : 128 <= r).
    { destruct (Z.lt_ge_cases r 128); [| done].
      exfalso. apply Hbig. apply Z.mod_small. lia. }
    rewrite orb_true_iff, negb_true_iff, !Z.eqb_eq, Z.eqb_neq.
    pose proof (Z.mul_div_le r 256 ltac:(lia)) as Hle.
    pose proof (Z.mod_pos_bound r 256 ltac:(lia)) as Hmod.
    pose proof (Z.div_mod r 256 ltac:(lia)) as Hdm.
    split.
    + intros [Hbit | Hne]; [| lia].
      destruct (Z.lt_ge_cases r (2 ^ 64 - 256)); [lia |].
      exfalso. apply (bit_8_of_small_negative r); [lia | done].
    + intros H. right. lia.
Qed.

(** What the resolver does with an 8-bit relative immediate whose target
    evaluates to [T], the absolute base address being [B]. *)
Lemma relative_8bit (area : area_t) (imm : late_immediate_t) (st : resolve_state) :
  imm_type imm = IMM_TYPE_RELATIVE -> imm_width imm = 8 -> 0 <= imm_address imm ->
  ev_error (evaluation_of area imm (rs_symbols st)) = EXPRESSION_OK ->
  let T := ev_result (evaluation_of area imm (rs_symbols st)) in
  let B := imm_base_address (rebase_immediate area imm) in
  let st' := snd (resolve_immediate area imm st) in
  (128 <= wrap64 (T - B) < 2 ^ 64 - 256 ->
   rs_errors st' = rs_errors st ++ [resolver_error ERROR_VALUE_TRUNCATED area imm None])
  /\ (~ 128 <= wrap64 (T - B) < 2 ^ 64 - 256 -> rs_errors st' = rs_errors st)
  /\ rs_data st' !! Z.to_nat (imm_address imm)
     = (fun b => Z.lor b ((T - B) mod 256)) <$> rs_data st !! Z.to_nat (imm_address imm).
Proof.
  intros Hrel Hw Ha Hok T B st'.
  unfold st'. rewrite resolve_immediate_ok by done. simpl.
  assert (Hres : resolved_value area imm (rs_symbols st) = wrap64 (T - B)).
  { unfold resolved_value. now rewrite Hrel, decide_True. }
  rewrite Hres, Hw.
  pose proof (wrap64_range (T - B)) as Hrange.
  assert (Htest : value_truncated (imm_type imm) 8 (wrap64 (T - B)) (width_mask 8) = true
                  <-> 128 <= wrap64 (T - B) < 2 ^ 64 - 256).
  { unfold value_truncated. rewrite Hrel, decide_True by done.
    now apply truncated_relative_8. }
  split; [| split].
  - intros Hout. apply Htest in Hout. now rewrite Hout.
  - intros Hin. destruct (value_truncated _ _ _ _); [| reflexivity].
    exfalso. apply Hin. now apply Htest.
  - rewrite land_width_mask by lia.
    replace (Z.to_nat (imm_address imm)) with (Z.to_nat (imm_address imm + 0))
      by (f_equal; lia).
    rewrite resolved_data_lookup; [| lia | lia | split; [lia | reflexivity]].
    assert (Hbyte : byte_of (wrap64 (T - B) mod 2 ^ 8) 0 = (T - B) mod 256).
    { unfold byte_of. rewrite Z.shiftr_0_r.
      change 255 with (Z.ones 8). rewrite Z.land_ones by lia.
      unfold wrap64. change 256 with (2 ^ 8). apply Z.bits_inj'. intros i Hi.
      rewrite !Z.testbit_mod_pow2 by lia. cases_on_comparisons. }
    now rewrite Hbyte.
Qed.

(** C1, the code at the failing input. For the difference T - B = -200,
    outside -128 .. 127, the link reports no diagnostic at all, so no
    TruncatedValue; the displacement byte written is (T - B) mod 256 =
    0x38. *)
Theorem relative_8bit_minus_200 :
  let r := link_objects auto_off 0 None [area_jr] in
  0 - 200 < -128
  /\ lr_errors r = []
  /\ lr_output r !! 199%nat = Some ((0 - 200) mod 256)
  /\ (0 - 200) mod 256 = 0x38.
Proof. vm_compute. repeat split. Qed.

(** ** A whole link with an unknown symbol

    [foo] is defined nowhere: one diagnostic, the two bytes of the first
    immediate stay zero, the second immediate is patched, and all five
    bytes reach the output writer. *)
Example link_with_unknown_symbol :
  let r := link_objects auto_off 0 None [area_foo] in
  lr_errors r = [mk_error ERROR_UNKNOWN_SYMBOL "CODE" 0 (Some "foo")]
  /\ lr_output r = [0x2A; 0; 0; 0x3E; 0x12]
  /\ lr_output_length r = 5.
Proof. vm_compute. repeat split. Qed.

(** * Further properties of the linker *)

(** ** find_symbol on any list *)

Lemma find_symbol_app (l1 l2 : list symbol_t) (name : string) :
  find_symbol (l1 ++ l2) name
  = match find_symbol l1 name with
    | Some sym => Some sym
    | None => find_symbol l2 name
    end.
Proof.
  induction l1 as [|x l1 IH]; [reflexivity |].
  change ((x :: l1) ++ l2) with (x :: (l1 ++ l2)).
  rewrite !find_symbol_cons. now destruct (decide (sym_key x = lowercase name)).
Qed.

Lemma find_symbol_same_name (symbols : list symbol_t) (n1 n2 : string) :
  same_name n1 n2 -> find_symbol symbols n1 = find_symbol symbols n2.
Proof.
  unfold same_name. intros Hn. induction symbols as [|x l IH]; [reflexivity |].
  rewrite !find_symbol_cons, Hn, IH. reflexivity.
Qed.

(** X1. On any symbol list, also one with several entries of the same
    name, [find_symbol] returns the first entry whose name equals the
    wanted one up to letter case; and the answer is the same for two
    wanted names that differ only in letter case. *)
Theorem find_symbol_first_match (symbols : list symbol_t) (name : string)
    (sym : symbol_t) :
  (find_symbol symbols name = Some sym
   <-> exists before after,
         symbols = before ++ sym :: after
         /\ same_name (sym_name sym) name
         /\ Forall (fun s => ~ same_name (sym_name s) name) before)
  /\ (forall other, same_name name other ->
        find_symbol symbols other = find_symbol symbols name).
Proof.
  split.
  - split.
    + revert sym. induction symbols as [|x l IH]; intros sym; [discriminate |].
      rewrite find_symbol_cons.
      destruct (decide (sym_key x = lowercase name)) as [He | Hne].
      * intros [= <-]. exists [], l. repeat split; [exact He | constructor].
      * intros Hf. destruct (IH sym Hf) as (before & after & -> & Hsame & Hnone).
        exists (x :: before), after. repeat split; [exact Hsame |].
        constructor; [exact Hne | exact Hnone].
    + intros (before & after & -> & Hsame & Hnone).
      rewrite find_symbol_app.
      assert (Hb : find_symbol before name = None).
      { apply find_symbol_None. intros s Hin.
        rewrite Forall_forall in Hnone. exact (Hnone s Hin). }
      rewrite Hb, find_symbol_cons. now rewrite decide_True.
  - intros other Hsame. symmetry. now apply find_symbol_same_name.
Qed.

(** ** gather_symbols, one area at a time *)

Lemma gather_loop_grows (area : area_t) (items : list symbol_t)
    (table : list symbol_t) (errors : list error_t) :
  exists added reported,
    gather_loop area items table errors
    = (table ++ added, errors ++ map duplicate_error (map (pair area) reported))
    /\ items ≡ₚ added ++ reported.
Proof.
  revert table errors. induction items as [|sym rest IH]; intros table errors.
  - exists [], []. simpl. now rewrite !app_nil_r.
  - cbn [gather_loop]. destruct (find_symbol table (sym_name sym)).
    + destruct (IH table (add_error_from_map errors ERROR_DUPLICATE_SYMBOL area
                            (sym_defined_address sym) (Some (sym_name sym))))
        as (added & reported & -> & Hperm).
      exists added, (sym :: reported). split.
      * unfold add_error_from_map. rewrite <- app_assoc. reflexivity.
      * rewrite Hperm. apply Permutation_middle.
    + destruct (IH (list_add table sym) errors) as (added & reported & -> & Hperm).
      exists (sym :: added), reported. split.
      * unfold list_add. rewrite <- app_assoc. reflexivity.
      * now rewrite Hperm.
Qed.

(** X2. One call of [gather_symbols] adds to the table and to the
    diagnostics at their ends only, and accounts for every symbol of the
    area exactly once: each one is either inserted or reported as a
    duplicate (with this area's source map), never both and never
    dropped. *)
Theorem gather_symbols_accounts (table : list symbol_t) (area : area_t)
    (errors : list error_t) :
  exists added reported,
    gather_symbols table area errors
    = (table ++ added, errors ++ map duplicate_error (map (pair area) reported))
    /\ area_symbols area ≡ₚ added ++ reported
    /\ (length added + length reported = length (area_symbols area))%nat.
Proof.
  destruct (gather_loop_grows area (area_symbols area) table errors)
    as (added & reported & Heq & Hperm).
  exists added, reported. split; [exact Heq | split; [exact Hperm |]].
  rewrite Hperm, length_app. reflexivity.
Qed.

Lemma gather_loop_finds (area : area_t) (items : list symbol_t)
    (table : list symbol_t) (errors : list error_t) :
  (forall name sym, find_symbol table name = Some sym ->
     find_symbol (fst (gather_loop area items table errors)) name = Some sym)
  /\ (forall sym, sym ∈ items ->
       is_Some (find_symbol (fst (gather_loop area items table errors)) (sym_name sym))).
Proof.
  revert table errors. induction items as [|x rest IH]; intros table errors.
  - split; [done | intros sym Hin; inversion Hin].
  - cbn [gather_loop]. destruct (find_symbol table (sym_name x)) as [found|] eqn:Hf.
    + destruct (IH table (add_error_from_map errors ERROR_DUPLICATE_SYMBOL area
                            (sym_defined_address x) (Some (sym_name x)))) as [Hold Hnew].
      split; [exact Hold |].
      intros sym Hin. apply elem_of_cons in Hin as [-> | Hin]; [| now apply Hnew].
      exists found. now apply Hold.
    + destruct (IH (list_add table x) errors) as [Hold Hnew].
      split.
      * intros name sym Hs. apply Hold. unfold list_add.
        rewrite find_symbol_app, Hs. reflexivity.
      * intros sym Hin. apply elem_of_cons in Hin as [-> | Hin]; [| now apply Hnew].
        exists x. apply Hold. unfold list_add.
        rewrite find_symbol_app, Hf, find_symbol_cons. now rewrite decide_True.
Qed.

(** X3. After [gather_symbols], every lookup that succeeded before gives
    the same symbol, every symbol of the area is found under its name (it
    or an earlier definition of that name), and a table without two
    entries of the same name stays so. *)
Theorem gather_symbols_lookup (table : list symbol_t) (area : area_t)
    (errors : list error_t) :
  let table' := fst (gather_symbols table area errors) in
  (forall name sym, find_symbol table name = Some sym ->
     find_symbol table' name = Some sym)
  /\ (forall sym, sym ∈ area_symbols area ->
       is_Some (find_symbol table' (sym_name sym)))
  /\ (unique_names table -> unique_names table').
Proof.
  cbv zeta. unfold gather_symbols.
  destruct (gather_loop_finds area (area_symbols area) table errors) as [Hold Hnew].
  split; [exact Hold | split; [exact Hnew |]].
  intros Hu. rewrite gather_loop_fold.
  now apply (gather_fold_unique _ (table, errors)).
Qed.

Lemma gather_loop_all_known (area : area_t) (items : list symbol_t)
    (table : list symbol_t) (errors : list error_t) :
  (forall sym, sym ∈ items -> is_Some (find_symbol table (sym_name sym))) ->
  gather_loop area items table errors
  = (table, errors ++ map duplicate_error (map (pair area) items)).
Proof.
  revert errors. induction items as [|x rest IH]; intros errors Hall.
  - simpl. now rewrite app_nil_r.
  - cbn [gather_loop]. destruct (Hall x ltac:(left)) as [found Hf]. rewrite Hf.
    rewrite IH by (intros sym Hin; apply Hall; now right).
    unfold add_error_from_map. rewrite <- app_assoc. reflexivity.
Qed.

(** X4. Gathering the same area a second time leaves the table as the
    first pass made it and reports every symbol of the area as a
    duplicate, in order. *)
Theorem gather_symbols_twice (table : list symbol_t) (area : area_t)
    (errors : list error_t) :
  let once := gather_symbols table area errors in
  gather_symbols (fst once) area (snd once)
  = (fst once,
     snd once ++ map duplicate_error (map (pair area) (area_symbols area))).
Proof.
  cbv zeta. unfold gather_symbols at 1.
  apply gather_loop_all_known.
  intros sym Hin. unfold gather_symbols.
  now apply (proj2 (gather_loop_finds area (area_symbols area) table errors)).
Qed.

(** ** move_origin and lookups *)

(** X5. [move_origin] keeps the names and the order of the entries, so a
    lookup finds the same entry after the shift as before, with the
    origin added to its value modulo 2^64; in particular a table without
    duplicate names stays so. *)
Theorem move_origin_lookup (origin : Z) (symbols : list symbol_t) (name : string) :
  find_symbol (move_origin origin symbols) name
    = move_symbol origin <$> find_symbol symbols name
  /\ map sym_name (move_origin origin symbols) = map sym_name symbols
  /\ map sym_value (move_origin origin symbols)
     = map (fun v => (v + origin) mod 2 ^ 64) (map sym_value symbols)
  /\ (unique_names symbols -> unique_names (move_origin origin symbols)).
Proof.
  assert (Hkeys : map sym_key (move_origin origin symbols) = map sym_key symbols).
  { unfold move_origin. rewrite map_map. now apply map_ext. }
  split; [| split; [| split]].
  - induction symbols as [|x l IH]; [reflexivity |].
    change (move_origin origin (x :: l)) with (move_symbol origin x :: move_origin origin l).
    rewrite !find_symbol_cons.
    change (sym_key (move_symbol origin x)) with (sym_key x).
    destruct (decide (sym_key x = lowercase name)); [reflexivity |].
    apply IH. unfold move_origin. rewrite map_map. now apply map_ext.
  - unfold move_origin. rewrite map_map. now apply map_ext.
  - unfold move_origin. rewrite !map_map. now apply map_ext.
  - unfold unique_names. now rewrite Hkeys.
Qed.

(** X6. Two origin shifts in a row are one shift by the sum, and a shift
    by a multiple of 2^64 more is the same shift: the values wrap around
    as [uint64_t]. *)
Theorem move_origin_composes (a b k : Z) (symbols : list symbol_t) :
  move_origin a (move_origin b symbols) = move_origin (a + b) symbols
  /\ move_origin (a + k * 2 ^ 64) symbols = move_origin a symbols.
Proof.
  split.
  - rewrite move_origin_twice. f_equal. lia.
  - unfold move_origin. apply map_ext. intros sym. unfold move_symbol. f_equal.
    unfold wrap64. rewrite Z.add_assoc. apply Z_mod_plus_full.
Qed.

(** ** The resolver, round by round *)

Lemma resolve_immediate_round (area : area_t) (imm : late_immediate_t)
    (st : resolve_state) :
  resolve_immediate area imm st
  = (rebase_immediate area imm,
     mk_rs (rs_symbols st)
       (round_patch area (rs_symbols st) imm (rs_data st))
       (rs_errors st ++ round_errors area (rs_symbols st) imm)).
Proof.
  unfold round_patch, round_errors.
  destruct (ev_error (evaluation_of area imm (rs_symbols st))) eqn:Hev.
  - rewrite resolve_immediate_ok by done.
    destruct (value_truncated _ _ _ _); [reflexivity | now rewrite app_nil_r].
  - now rewrite resolve_immediate_bad_symbol.
  - unfold evaluation_of in Hev. unfold resolve_immediate. cbv zeta.
    change (imm_expression (rebase_immediate area imm)) with (imm_expression imm).
    rewrite Hev, list_del_list_add. reflexivity.
Qed.

Lemma resolve_loop_rounds (area : area_t) (imms : list late_immediate_t)
    (st : resolve_state) :
  resolve_loop area imms st
  = (map (rebase_immediate area) imms,
     mk_rs (rs_symbols st)
       (fold_left (fun data imm => round_patch area (rs_symbols st) imm data)
                  imms (rs_data st))
       (rs_errors st ++ flat_map (round_errors area (rs_symbols st)) imms)).
Proof.
  revert st. induction imms as [|imm rest IH]; intros st.
  - simpl. rewrite app_nil_r. now destruct st.
  - cbn [resolve_loop]. rewrite resolve_immediate_round, IH. simpl.
    now rewrite <- app_assoc.
Qed.

(** X7. When the evaluator rejects an immediate's expression as
    malformed, the round reports exactly one InvalidSyntax diagnostic with
    the absolute instruction address and no symbol name, leaves the buffer
    and the symbol list as they are, and the loop goes on with the next
    immediate. *)
Theorem malformed_expression_is_reported (area : area_t) (imm : late_immediate_t)
    (rest : list late_immediate_t) (st : resolve_state) :
  ev_error (evaluation_of area imm (rs_symbols st)) = EXPRESSION_BAD_SYNTAX ->
  let st1 :=
    mk_rs (rs_symbols st) (rs_data st)
      (rs_errors st
         ++ [mk_error ERROR_INVALID_SYNTAX (area_name area)
               (wrap64 (imm_instruction_address imm + final_address area)) None]) in
  resolve_loop area (imm :: rest) st
  = (rebase_immediate area imm :: fst (resolve_loop area rest st1),
     snd (resolve_loop area rest st1)).
Proof.
  intros Hbad st1. cbn [resolve_loop]. rewrite resolve_immediate_round.
  unfold round_patch, round_errors. rewrite Hbad.
  change (mk_rs (rs_symbols st) (rs_data st)
            (rs_errors st ++ [resolver_error ERROR_INVALID_SYNTAX area imm None]))
    with st1.
  now destruct (resolve_loop area rest st1).
Qed.

Lemma malformed_expression_is_reported_witness :
  snd (resolve_loop area_foo [imm_malformed; imm_after_foo]
         (mk_rs [] (data area_foo) []))
  = mk_rs [] [0x2A; 0; 0; 0x3E; 0x12]
      [mk_error ERROR_INVALID_SYNTAX "CODE" 0x100 None].
Proof.
  rewrite (malformed_expression_is_reported area_foo imm_malformed [imm_after_foo]
             (mk_rs [] (data area_foo) []) eq_refl).
  reflexivity.
Defined.

(** X8. [resolve_immediate_values] makes the addresses of every immediate
    of the area absolute, whatever the outcome of its evaluation; the
    area keeps its final address, so a second call adds the final address
    once more: the function is to be run once per area. *)
Theorem resolve_rebases_immediates (symbols : list symbol_t) (area : area_t)
    (errors : list error_t) :
  let once := resolve_immediate_values symbols area errors in
  let twice := resolve_immediate_values (fst (fst once)) (snd (fst once)) (snd once) in
  late_immediates (snd (fst once)) = map (rebase_immediate area) (late_immediates area)
  /\ late_immediates (snd (fst twice))
     = map (fun imm =>
              mk_imm (imm_expression imm) (imm_width imm) (imm_address imm)
                (wrap64 (imm_instruction_address imm + 2 * final_address area))
                (wrap64 (imm_base_address imm + 2 * final_address area))
                (imm_type imm))
           (late_immediates area).
Proof.
  cbv zeta. unfold resolve_immediate_values.
  rewrite resolve_loop_rounds. cbn [fst snd late_immediates rs_symbols rs_data rs_errors].
  rewrite resolve_loop_rounds. cbn [fst snd late_immediates].
  split; [reflexivity |].
  rewrite map_map. apply map_ext. intros imm.
  unfold rebase_immediate. cbn. f_equal; unfold wrap64;
    rewrite Zplus_mod_idemp_l; f_equal; lia.
Qed.

Lemma round_errors_shape (area : area_t) (symbols : list symbol_t)
    (imm : late_immediate_t) :
  (length (round_errors area symbols imm) <= 1)%nat
  /\ Forall (fun e => err_area e = area_name area
                      /\ err_code e <> ERROR_DUPLICATE_SYMBOL
                      /\ err_address e
                         = wrap64 (imm_instruction_address imm + final_address area))
            (round_errors area symbols imm).
Proof.
  unfold round_errors.
  destruct (ev_error _); [destruct (value_truncated _ _ _ _) | |]; simpl;
    (split; [lia |]); repeat constructor; discriminate.
Qed.

Lemma round_errors_all (area : area_t) (symbols : list symbol_t)
    (imms : list late_immediate_t) :
  (length (flat_map (round_errors area symbols) imms) <= length imms)%nat
  /\ Forall (fun e => err_area e = area_name area
                      /\ err_code e <> ERROR_DUPLICATE_SYMBOL)
            (flat_map (round_errors area symbols) imms).
Proof.
  induction imms as [|imm rest IH]; [split; [done | constructor] |].
  destruct IH as [IHlen IHall].
  destruct (round_errors_shape area symbols imm) as [H1 Hall].
  cbn [flat_map]. split.
  - rewrite length_app. simpl. lia.
  - apply Forall_app. split; [| exact IHall].
    eapply Forall_impl; [exact Hall |]. intros e (Ha & Hc & _). now split.
Qed.

(** X9. [resolve_immediate_values] changes nothing of the area but its
    immediates' addresses and the contents of its buffer: name, symbols,
    final address and buffer length stay.  The diagnostics it received
    stay in front, each immediate adds at most one, and every added one
    names this area and is not a DuplicateSymbol. *)
Theorem resolve_frame (symbols : list symbol_t) (area : area_t)
    (errors : list error_t) :
  let area' := snd (fst (resolve_immediate_values symbols area errors)) in
  let errors' := snd (resolve_immediate_values symbols area errors) in
  area_name area' = area_name area
  /\ area_symbols area' = area_symbols area
  /\ final_address area' = final_address area
  /\ length (data area') = length (data area)
  /\ exists added,
       errors' = errors ++ added
       /\ (length added <= length (late_immediates area))%nat
       /\ Forall (fun e => err_area e = area_name area
                           /\ err_code e <> ERROR_DUPLICATE_SYMBOL) added.
Proof.
  cbv zeta.
  pose proof (length_resolve_loop area (late_immediates area)
                (mk_rs symbols (data area) errors)) as Hlen.
  unfold resolve_immediate_values. rewrite resolve_loop_rounds in *.
  cbn [fst snd area_name area_symbols final_address data rs_data rs_errors rs_symbols] in *.
  repeat split; try done.
  exists (flat_map (round_errors area symbols) (late_immediates area)).
  split; [reflexivity | apply round_errors_all].
Qed.

(** X10. The list the evaluator receives is the symbol list with the
    transient [$] at its end: a lookup of any name that a table entry
    bears (letter case apart) finds that entry, also for the name [$]
    itself; only a name no table entry bears and that is [$] finds the
    transient symbol, whose value is the absolute instruction address. *)
Theorem transient_pc_lookup (symbols : list symbol_t) (area : area_t)
    (imm : late_immediate_t) (name : string) :
  find_symbol (list_add symbols (sym_pc (rebase_immediate area imm))) name
  = match find_symbol symbols name with
    | Some sym => Some sym
    | None =>
        if decide (lowercase name = "$")
        then Some (mk_symbol SYMBOL_LABEL "$"
                     (wrap64 (imm_instruction_address imm + final_address area)) 0 0)
        else None
    end.
Proof.
  unfold list_add. rewrite find_symbol_app.
  destruct (find_symbol symbols name); [reflexivity |].
  rewrite find_symbol_cons. cbn [find_symbol].
  change (sym_key (sym_pc (rebase_immediate area imm))) with "$".
  destruct (decide (lowercase name = "$")) as [He | Hne].
  - rewrite decide_True by done. reflexivity.
  - rewrite decide_False by congruence. reflexivity.
Qed.

(** ** The accepted ranges of the two truncation tests *)

Lemma not64_value (r : Z) : 0 <= r < 2 ^ 64 -> not64 r = 2 ^ 64 - 1 - r.
Proof.
  intros Hr. unfold not64, wrap64. rewrite Z.lnot_eq_pred_opp.
  replace (- r - 1) with (2 ^ 64 - 1 - r + (-1) * 2 ^ 64) by lia.
  rewrite Z_mod_plus_full. apply Z.mod_small. lia.
Qed.

Lemma pow2_width_bounds (width : Z) :
  0 <= width < 64 -> 0 < 2 ^ width /\ 2 * 2 ^ width <= 2 ^ 64.
Proof.
  intros Hw. split; [apply Z.pow_pos_nonneg; lia |].
  replace (2 * 2 ^ width) with (2 ^ (width + 1)) by (rewrite Z.pow_add_r; lia).
  apply Z.pow_le_mono_r; lia.
Qed.

Lemma truncated_absolute_range (width r : Z) :
  1 <= width -> 0 <= r < 2 ^ 64 ->
  truncated_absolute width r (width_mask width) = true
  <-> 2 ^ width <= r < 2 ^ 64 - 2 ^ width.
Proof.
  intros Hw Hr. rewrite truncated_absolute_spec by done.
  pose proof (wrap64_range (Z.lnot r)) as Hn. fold (not64 r) in Hn.
  rewrite !bits_beyond_iff by lia. rewrite not64_value by done. lia.
Qed.

(** X11. An absolute immediate that evaluates to the [uint64_t] [v] gets
    a TruncatedValue diagnostic exactly when 2^width <= v < 2^64 -
    2^width: read as a signed number, every value from -2^width to
    2^width - 1 is accepted without a diagnostic. *)
Theorem absolute_accepted_range (area : area_t) (imm : late_immediate_t)
    (st : resolve_state) :
  imm_type imm = IMM_TYPE_ABSOLUTE -> 1 <= imm_width imm ->
  ev_error (evaluation_of area imm (rs_symbols st)) = EXPRESSION_OK ->
  let v := ev_result (evaluation_of area imm (rs_symbols st)) in
  let st' := snd (resolve_immediate area imm st) in
  (2 ^ imm_width imm <= v < 2 ^ 64 - 2 ^ imm_width imm ->
   rs_errors st' = rs_errors st ++ [resolver_error ERROR_VALUE_TRUNCATED area imm None])
  /\ (v < 2 ^ imm_width imm \/ 2 ^ 64 - 2 ^ imm_width imm <= v ->
      rs_errors st' = rs_errors st).
Proof.
  intros Habs Hw Hok v st'. unfold st'. rewrite resolve_immediate_ok by done. simpl.
  assert (Hres : resolved_value area imm (rs_symbols st) = v).
  { unfold resolved_value. rewrite Habs. now rewrite decide_False. }
  rewrite Hres.
  assert (Hrange : 0 <= v < 2 ^ 64) by (rewrite <- Hres; apply resolved_value_range).
  assert (Htest : value_truncated (imm_type imm) (imm_width imm) v
                    (width_mask (imm_width imm)) = true
                  <-> 2 ^ imm_width imm <= v < 2 ^ 64 - 2 ^ imm_width imm).
  { unfold value_truncated. rewrite Habs, decide_False by done.
    now apply truncated_absolute_range. }
  split.
  - intros Hout. apply Htest in Hout. now rewrite Hout.
  - intros Hin. destruct (value_truncated _ _ _ _); [| reflexivity].
    exfalso. assert (Ht : true = true) by reflexivity. apply Htest in Ht. lia.
Qed.

Lemma absolute_accepted_range_witness :
  rs_errors (snd (resolve_immediate (area_abs16 (-1)) imm_minus_one
                    (mk_rs [] [0x21; 0; 0] []))) = [].
Proof.
  apply (proj2 (absolute_accepted_range (area_abs16 (-1)) imm_minus_one
                  (mk_rs [] [0x21; 0; 0] [])
                  eq_refl ltac:(simpl; lia) eq_refl)).
  right. vm_compute. intros Hgt. discriminate Hgt.
Defined.

Lemma land_above_width (width r : Z) :
  0 <= width < 64 -> 0 <= r < 2 ^ 64 ->
  Z.land r (2 ^ 64 - 2 ^ width) = r / 2 ^ width * 2 ^ width.
Proof.
  intros Hw Hr.
  assert (Hshape : 2 ^ 64 - 2 ^ width = Z.shiftl (Z.ones (64 - width)) width).
  { rewrite Z.shiftl_mul_pow2, Z.ones_equiv by lia.
    replace (2 ^ 64) with (2 ^ (64 - width) * 2 ^ width)
      by (rewrite <- Z.pow_add_r by lia; f_equal; lia).
    lia. }
  rewrite Hshape.
  assert (Hbits : Z.land r (Z.shiftl (Z.ones (64 - width)) width)
                  = Z.shiftl (Z.land (Z.shiftr r width) (Z.ones (64 - width))) width).
  { apply Z.bits_inj'. intros i Hi.
    rewrite Z.land_spec, !Z.shiftl_spec, Z.land_spec by lia.
    destruct (Z.lt_ge_cases i width) as [Hlt | Hge].
    - rewrite !(Z.testbit_neg_r _ (i - width)) by lia. apply andb_false_r.
    - rewrite Z.shiftr_spec by lia. now replace (i - width + width) with i by lia. }
  rewrite Hbits, Z.land_ones, Z.shiftr_div_pow2, Z.shiftl_mul_pow2 by lia.
  pose proof (Z.pow_pos_nonneg 2 width ltac:(lia) ltac:(lia)) as Hp.
  rewrite Z.mod_small; [reflexivity |].
  split; [apply Z.div_pos; lia |].
  apply Z.div_lt_upper_bound; [lia |].
  rewrite <- Z.pow_add_r by lia. now replace (width + (64 - width)) with 64 by lia.
Qed.

Lemma top_quotient (width r : Z) :
  0 <= width < 64 -> 2 ^ 64 - 2 ^ width <= r < 2 ^ 64 ->
  r / 2 ^ width = 2 ^ (64 - width) - 1.
Proof.
  intros Hw Hr.
  pose proof (Z.pow_pos_nonneg 2 width ltac:(lia) ltac:(lia)) as Hp.
  assert (Hsplit : 2 ^ 64 = 2 ^ (64 - width) * 2 ^ width)
    by (rewrite <- Z.pow_add_r by lia; f_equal; lia).
  assert (2 ^ (64 - width) - 1 <= r / 2 ^ width)
    by (apply Z.div_le_lower_bound; lia).
  assert (r / 2 ^ width < 2 ^ (64 - width))
    by (apply Z.div_lt_upper_bound; lia).
  lia.
Qed.

Lemma bit_above_set (width r : Z) :
  0 <= width < 64 -> 2 ^ 64 - 2 ^ width <= r < 2 ^ 64 ->
  Z.land r (Z.shiftl 1 width) <> 0.
Proof.
  intros Hw Hr Hz.
  assert (Hbit : Z.testbit r width = true).
  { apply Z.testbit_true; [lia |]. rewrite top_quotient by done.
    replace (2 ^ (64 - width)) with (2 * 2 ^ (63 - width))
      by (rewrite <- (Z.pow_succ_r 2) by lia; f_equal; lia).
    replace (2 * 2 ^ (63 - width) - 1) with (1 + (2 ^ (63 - width) - 1) * 2) by lia.
    now rewrite Z_mod_plus_full. }
  assert (Hland : Z.testbit (Z.land r (Z.shiftl 1 width)) width = true).
  { rewrite Z.land_spec, Hbit, Z.shiftl_spec, Z.sub_diag by lia. reflexivity. }
  rewrite Hz, Z.testbit_0_l in Hland. discriminate Hland.
Qed.

Lemma truncated_relative_range (width r : Z) :
  1 <= width < 64 -> 0 <= r < 2 ^ 64 ->
  truncated_relative width r (width_mask width) = true
  <-> 2 ^ (width - 1) <= r < 2 ^ 64 - 2 ^ width.
Proof.
  intros Hw Hr. unfold truncated_relative.
  rewrite width_mask_ones, Z.min_l by lia.
  assert (Hhalf : Z.shiftr (Z.ones width) 1 = Z.ones (width - 1)).
  { apply Z.bits_inj'. intros i Hi.
    rewrite Z.shiftr_spec, !Z.testbit_ones by lia. cases_on_comparisons. }
  destruct (pow2_width_bounds width ltac:(lia)) as [Hp Hp2].
  assert (Hnot : not64 (Z.ones width) = 2 ^ 64 - 2 ^ width).
  { rewrite not64_value; rewrite Z.ones_equiv; lia. }
  rewrite Hhalf, Hnot, Z.land_ones, land_above_width by lia.
  pose proof (Z.pow_pos_nonneg 2 (width - 1) ltac:(lia) ltac:(lia)) as Hq.
  destruct (Z.eqb_spec (r mod 2 ^ (width - 1)) r) as [Hsmall | Hbig]; simpl.
  - split; [discriminate |]. intros H.
    pose proof (Z.mod_pos_bound r (2 ^ (width - 1)) Hq). lia.
  - assert (Hlow : 2 ^ (width - 1) <= r).
    { destruct (Z.lt_ge_cases r (2 ^ (width - 1))); [| done].
      exfalso. apply Hbig. apply Z.mod_small. lia. }
    rewrite orb_true_iff, negb_true_iff, !Z.eqb_eq, Z.eqb_neq.
    pose proof (Z.mul_div_le r (2 ^ width) Hp) as Hle.
    pose proof (Z.mod_pos_bound r (2 ^ width) Hp) as Hmod.
    pose proof (Z.div_mod r (2 ^ width) ltac:(lia)) as Hdm.
    split.
    + intros Hcases.
      destruct (Z.lt_ge_cases r (2 ^ 64 - 2 ^ width)) as [Hlt | Hge]; [lia |].
      exfalso. destruct Hcases as [Hbit | Hne].
      * apply (bit_above_set width r); [lia | lia | done].
      * apply Hne. rewrite top_quotient by lia.
        rewrite Z.mul_sub_distr_r, <- Z.pow_add_r by lia.
        replace (64 - width + width) with 64 by lia. lia.
    + intros H. right. lia.
Qed.

(** X12. A relative immediate of width up to 30 whose difference T - B is
    the [uint64_t] [d] gets a TruncatedValue diagnostic exactly when
    2^(width-1) <= d < 2^64 - 2^width: read as a signed number, the
    differences from -2^width to 2^(width-1) - 1 are accepted, twice as
    many negative ones as [width] signed bits hold. *)
Theorem relative_accepted_range (area : area_t) (imm : late_immediate_t)
    (st : resolve_state) :
  imm_type imm = IMM_TYPE_RELATIVE -> 1 <= imm_width imm <= 30 ->
  ev_error (evaluation_of area imm (rs_symbols st)) = EXPRESSION_OK ->
  let d := wrap64 (ev_result (evaluation_of area imm (rs_symbols st))
                   - wrap64 (imm_base_address imm + final_address area)) in
  let st' := snd (resolve_immediate area imm st) in
  (2 ^ (imm_width imm - 1) <= d < 2 ^ 64 - 2 ^ imm_width imm ->
   rs_errors st' = rs_errors st ++ [resolver_error ERROR_VALUE_TRUNCATED area imm None])
  /\ (d < 2 ^ (imm_width imm - 1) \/ 2 ^ 64 - 2 ^ imm_width imm <= d ->
      rs_errors st' = rs_errors st).
Proof.
  intros Hrel Hw Hok d st'. unfold st'. rewrite resolve_immediate_ok by done. simpl.
  assert (Hres : resolved_value area imm (rs_symbols st) = d).
  { unfold resolved_value. now rewrite Hrel, decide_True. }
  rewrite Hres.
  assert (Hrange : 0 <= d < 2 ^ 64) by apply wrap64_range.
  assert (Htest : value_truncated (imm_type imm) (imm_width imm) d
                    (width_mask (imm_width imm)) = true
                  <-> 2 ^ (imm_width imm - 1) <= d < 2 ^ 64 - 2 ^ imm_width imm).
  { unfold value_truncated. rewrite Hrel, decide_True by done.
    apply truncated_relative_range; lia. }
  split.
  - intros Hout. apply Htest in Hout. now rewrite Hout.
  - intros Hin. destruct (value_truncated _ _ _ _); [| reflexivity].
    exfalso. assert (Ht : true = true) by reflexivity. apply Htest in Ht. lia.
Qed.

Lemma relative_accepted_range_witness :
  0 - 40000 < - 2 ^ 15
  /\ rs_errors (snd (resolve_immediate (area_abs16 0) imm_rel16
                       (mk_rs [] [0x21; 0; 0] []))) = [].
Proof.
  split; [reflexivity |].
  apply (proj2 (relative_accepted_range (area_abs16 0) imm_rel16
                  (mk_rs [] [0x21; 0; 0] [])
                  eq_refl ltac:(simpl; lia) eq_refl)).
  right. vm_compute. intros Hgt. discriminate Hgt.
Defined.

(** ** What the patch loop leaves in the buffer *)

Lemma byte_of_next (value j : Z) :
  0 <= j -> byte_of value (j + 1) = byte_of (Z.shiftr value 8) j.
Proof.
  intros Hj. unfold byte_of. rewrite Z.shiftr_shiftr by lia.
  f_equal. f_equal. lia.
Qed.

Lemma le_value_bytes (n : nat) (bytes : list Z) (value : Z) :
  (forall j : nat, (j < n)%nat -> bytes !! j = Some (byte_of value (Z.of_nat j))) ->
  le_value (take n bytes) = value mod 2 ^ (8 * Z.of_nat n).
Proof.
  revert bytes value. induction n as [|n IH]; intros bytes value Hbytes.
  - simpl. now rewrite Z.mod_1_r.
  - destruct bytes as [|b rest]; [specialize (Hbytes 0%nat ltac:(lia)); discriminate |].
    cbn [take le_value].
    pose proof (Hbytes 0%nat ltac:(lia)) as H0. injection H0 as ->.
    rewrite (IH rest (Z.shiftr value 8)).
    + unfold byte_of. rewrite Z.shiftr_0_r. change 255 with (Z.ones 8).
      rewrite Z.land_ones, Z.shiftr_div_pow2 by lia.
      replace (8 * Z.of_nat (S n)) with (8 + 8 * Z.of_nat n) by lia.
      rewrite Z.pow_add_r by lia. change (2 ^ 8) with 256.
      rewrite Z.rem_mul_r; [reflexivity | lia |].
      apply Z.pow_pos_nonneg; lia.
    + intros j Hj.
      assert (Hr : rest !! j = Some (byte_of value (Z.of_nat (S j))))
        by exact (Hbytes (S j) ltac:(lia)).
      rewrite Hr. f_equal.
      replace (Z.of_nat (S j)) with (Z.of_nat j + 1) by lia.
      apply byte_of_next. lia.
Qed.

Lemma lor_keeps_bits (b x : Z) : keeps_bits b (Z.lor b x).
Proof.
  unfold keeps_bits. apply Z.bits_inj'. intros i Hi.
  rewrite Z.land_spec, Z.lor_spec. now destruct (Z.testbit b i), (Z.testbit x i).
Qed.

Lemma patch_lookup (width address value : Z) (data : list Z) (k : nat) :
  0 <= address ->
  patch width address value data !! k
  = if decide (Z.to_nat address <= k
               < Z.to_nat address + Z.to_nat (Z.quot width 8))%nat
    then (fun b => Z.lor b (byte_of value (Z.of_nat (k - Z.to_nat address))))
           <$> data !! k
    else data !! k.
Proof.
  intros Ha. unfold patch. rewrite patch_loop_lookup by lia.
  replace (address + 0) with address by lia. reflexivity.
Qed.

(** X13. When the bytes an immediate is patched into are zero before, the
    bytes read back after a successful resolution, least significant byte
    first, are the resolved value masked to [width] bits and cut to the
    [width / 8] bytes written. *)
Theorem patch_round_trip (area : area_t) (imm : late_immediate_t)
    (st : resolve_state) :
  1 <= imm_width imm -> 0 <= imm_address imm ->
  ev_error (evaluation_of area imm (rs_symbols st)) = EXPRESSION_OK ->
  (forall j, 0 <= j < imm_width imm / 8 ->
     rs_data st !! Z.to_nat (imm_address imm + j) = Some 0) ->
  le_value (take (Z.to_nat (imm_width imm / 8))
              (drop (Z.to_nat (imm_address imm))
                 (rs_data (snd (resolve_immediate area imm st)))))
  = resolved_value area imm (rs_symbols st) mod 2 ^ imm_width imm
      mod 2 ^ (8 * (imm_width imm / 8)).
Proof.
  intros Hw Ha Hok Hzero.
  rewrite resolve_immediate_ok by done. cbn [snd rs_data].
  rewrite land_width_mask by (try apply resolved_value_range; lia).
  pose proof (Z.div_pos (imm_width imm) 8 ltac:(lia) ltac:(lia)) as Hn.
  rewrite (le_value_bytes _ _
             (resolved_value area imm (rs_symbols st) mod 2 ^ imm_width imm)).
  - f_equal. f_equal. lia.
  - intros j Hj. rewrite lookup_drop.
    replace (Z.to_nat (imm_address imm) + j)%nat
      with (Z.to_nat (imm_address imm + Z.of_nat j)) by lia.
    rewrite resolved_data_lookup by lia.
    rewrite Hzero by lia. reflexivity.
Qed.

Lemma patch_round_trip_witness :
  le_value (take 2 (drop 1 (rs_data (snd (resolve_immediate (area_abs16 0x1234)
                                            (imm_word 0x1234 1)
                                            (mk_rs [] [0x21; 0; 0] []))))))
  = 0x1234.
Proof.
  apply (patch_round_trip (area_abs16 0x1234) (imm_word 0x1234 1)
           (mk_rs [] [0x21; 0; 0] []) ltac:(simpl; lia) ltac:(simpl; lia) eq_refl).
  intros j Hj. cbn in Hj.
  assert (Hcases : j = 0 \/ j = 1) by (change (16 / 8) with 2 in Hj; lia).
  destruct Hcases as [-> | ->]; reflexivity.
Defined.

Lemma keeps_bits_trans (a b c : Z) : keeps_bits a b -> keeps_bits b c -> keeps_bits a c.
Proof.
  unfold keeps_bits. intros Hab Hbc.
  rewrite <- Hab at 1. rewrite Z.land_assoc, Hbc. exact Hab.
Qed.

Lemma patch_loop_keeps_bits (n : nat) (j address value : Z) (data : list Z)
    (k : nat) (b : Z) :
  data !! k = Some b ->
  exists b', patch_loop n j address value data !! k = Some b' /\ keeps_bits b b'.
Proof.
  revert j value data b. induction n as [|n IH]; intros j value data b Hk.
  - exists b. split; [exact Hk | apply Z.land_diag].
  - cbn [patch_loop].
    assert (Hone : exists b1,
               alter (fun b0 => Z.lor b0 (Z.land value 255)) (Z.to_nat (address + j)) data
                 !! k = Some b1 /\ keeps_bits b b1).
    { destruct (decide (Z.to_nat (address + j) = k)) as [-> | Hne].
      - rewrite list_lookup_alter_eq, Hk. eexists. split; [reflexivity |].
        apply lor_keeps_bits.
      - rewrite list_lookup_alter_ne by done. exists b.
        split; [exact Hk | apply Z.land_diag]. }
    destruct Hone as (b1 & H1 & Hb1).
    destruct (IH (j + 1) (Z.shiftr value 8) _ b1 H1) as (b' & H' & Hb').
    exists b'. split; [exact H' | now apply (keeps_bits_trans b b1 b')].
Qed.

(** X14. The resolver only ever sets bits: whatever the outcome of a
    round, the buffer keeps its length and every byte keeps all the bits
    it had.  And the patch loop run a second time with the same value
    changes nothing more. *)
Theorem patch_only_sets_bits (area : area_t) (imm : late_immediate_t)
    (st : resolve_state) (width address value : Z) (data : list Z) :
  length (rs_data (snd (resolve_immediate area imm st))) = length (rs_data st)
  /\ (forall k b, rs_data st !! k = Some b ->
        exists b', rs_data (snd (resolve_immediate area imm st)) !! k = Some b'
                   /\ keeps_bits b b')
  /\ (0 <= address ->
      patch width address value (patch width address value data)
      = patch width address value data).
Proof.
  split; [apply length_resolve_immediate | split].
  - intros k b Hk. rewrite resolve_immediate_round. cbn [snd rs_data].
    unfold round_patch.
    assert (Hsame : exists b', rs_data st !! k = Some b' /\ keeps_bits b b').
    { exists b. split; [exact Hk |]. unfold keeps_bits. apply Z.land_diag. }
    destruct (ev_error _); try exact Hsame.
    now apply patch_loop_keeps_bits.
  - intros Ha. apply list_eq. intros k. rewrite !patch_lookup by done.
    destruct (decide _); [| reflexivity].
    destruct (data !! k) as [b|]; [| reflexivity]. cbn. f_equal.
    rewrite <- Z.lor_assoc. now rewrite Z.lor_diag.
Qed.

Lemma patch_comm (w1 a1 v1 w2 a2 v2 : Z) (data : list Z) :
  0 <= a1 -> 0 <= a2 ->
  patch w1 a1 v1 (patch w2 a2 v2 data) = patch w2 a2 v2 (patch w1 a1 v1 data).
Proof.
  intros H1 H2. apply list_eq. intros k. rewrite !patch_lookup by done.
  destruct (decide _), (decide _); try reflexivity.
  destruct (data !! k) as [b|]; [| reflexivity]. cbn. f_equal.
  rewrite <- !Z.lor_assoc. f_equal. apply Z.lor_comm.
Qed.

Lemma round_patch_comm (area : area_t) (symbols : list symbol_t)
    (x y : late_immediate_t) (data : list Z) :
  0 <= imm_address x -> 0 <= imm_address y ->
  round_patch area symbols x (round_patch area symbols y data)
  = round_patch area symbols y (round_patch area symbols x data).
Proof.
  intros Hx Hy. unfold round_patch.
  destruct (ev_error (evaluation_of area x symbols)),
           (ev_error (evaluation_of area y symbols)); try reflexivity.
  now apply patch_comm.
Qed.

Lemma fold_round_patch_perm (area : area_t) (symbols : list symbol_t)
    (l1 l2 : list late_immediate_t) :
  l1 ≡ₚ l2 -> Forall (fun imm => 0 <= imm_address imm) l1 ->
  forall data,
    fold_left (fun d imm => round_patch area symbols imm d) l1 data
    = fold_left (fun d imm => round_patch area symbols imm d) l2 data.
Proof.
  induction 1 as [|x l l' Hperm IH|x y l|l l' l'' Hp1 IH1 Hp2 IH2]; intros Hall data.
  - reflexivity.
  - apply Forall_cons in Hall as [_ Hall]. cbn [fold_left]. now apply IH.
  - apply Forall_cons in Hall as [Hy Hall]. apply Forall_cons in Hall as [Hx _].
    cbn [fold_left]. f_equal. now apply round_patch_comm.
  - rewrite IH1 by done. apply IH2. now rewrite <- Hp1.
Qed.

(** X15. The bytes [resolve_immediate_values] leaves in the buffer do not
    depend on the order in which the area's immediates are stored, also
    when two of them patch the same byte; the diagnostics are the same up
    to their order. *)
Theorem resolve_order_irrelevant (area : area_t) (imms imms' : list late_immediate_t)
    (st : resolve_state) :
  Forall (fun imm => 0 <= imm_address imm) imms -> imms ≡ₚ imms' ->
  rs_data (snd (resolve_loop area imms st)) = rs_data (snd (resolve_loop area imms' st))
  /\ rs_errors (snd (resolve_loop area imms st))
     ≡ₚ rs_errors (snd (resolve_loop area imms' st)).
Proof.
  intros Hall Hperm. rewrite !resolve_loop_rounds. cbn [snd rs_data rs_errors].
  split.
  - now apply fold_round_patch_perm.
  - apply Permutation_app_head. now apply Permutation_flat_map.
Qed.

Lemma resolve_order_irrelevant_witness :
  rs_data (snd (resolve_loop (area_abs16 0) [imm_word 0x1234 1; imm_word 0xFF00 0]
                  (mk_rs [] [0; 0; 0] [])))
  = rs_data (snd (resolve_loop (area_abs16 0) [imm_word 0xFF00 0; imm_word 0x1234 1]
                    (mk_rs [] [0; 0; 0] []))).
Proof.
  apply (resolve_order_irrelevant (area_abs16 0)
           [imm_word 0x1234 1; imm_word 0xFF00 0]
           [imm_word 0xFF00 0; imm_word 0x1234 1] (mk_rs [] [0; 0; 0] [])).
  - repeat constructor; simpl; lia.
  - apply perm_swap.
Defined.

(** ** auto_relocate_area on its own *)

Lemma decode_relocation_entries (final : Z) (imms : list late_immediate_t) :
  decode_entries
    (flat_map (fun imm => little_endian_16 (imm_address imm + final)) imms)
  = map (fun imm => (imm_address imm + final) mod 2 ^ 16) imms.
Proof.
  induction imms as [|imm rest IH]; [reflexivity |].
  cbn [flat_map map little_endian_16 app decode_entries]. rewrite IH. f_equal.
  pose proof (Z.div_mod ((imm_address imm + final) mod 2 ^ 16) 256 ltac:(lia)). lia.
Qed.

Lemma length_relocation_entries (final : Z) (imms : list late_immediate_t) :
  length (flat_map (fun imm => little_endian_16 (imm_address imm + final)) imms)
  = (2 * length imms)%nat.
Proof.
  induction imms as [|imm rest IH]; [reflexivity |].
  cbn [flat_map little_endian_16 app length]. rewrite IH. lia.
Qed.

(** X16. [auto_relocate_area] changes nothing of the relocation table but
    its buffer, to which it only appends: two bytes for each immediate of
    the area that is not relative and whose base address differs from its
    offset, and nothing for any other.  Read back two bytes at a time,
    the appended bytes are the offsets plus the area's final address,
    modulo 2^16, in the order of the immediates. *)
Theorem auto_relocate_area_appends (area table : area_t) :
  let table' := auto_relocate_area area table in
  let relocated := filter is_relocated (late_immediates area) in
  area_name table' = area_name table
  /\ late_immediates table' = late_immediates table
  /\ area_symbols table' = area_symbols table
  /\ final_address table' = final_address table
  /\ take (length (data table)) (data table') = data table
  /\ length (data table') = (length (data table) + 2 * length relocated)%nat
  /\ decode_entries (drop (length (data table)) (data table'))
     = map (fun imm => (imm_address imm + final_address area) mod 2 ^ 16) relocated.
Proof.
  cbv zeta. rewrite auto_relocate_area_entries. unfold relocation_entries.
  cbn [append_to_area area_name late_immediates area_symbols final_address data].
  repeat split.
  - now rewrite take_app_length.
  - now rewrite length_app, length_relocation_entries.
  - rewrite drop_app_length. apply decode_relocation_entries.
Qed.

(** ** Placement without automatic relocation *)

Lemma laid_out_lookup (address : Z) (areas : list area_t) (i : nat) (area : area_t) :
  areas !! i = Some area ->
  laid_out (wrap64 address) areas !! i
  = Some (relocate_area area (wrap64 (address + total_length (take i areas)))).
Proof.
  revert address i. induction areas as [|x rest IH]; intros address i Hi; [discriminate |].
  destruct i as [|i].
  - injection Hi as ->. cbn. now rewrite Z.add_0_r.
  - cbn [laid_out lookup list_lookup take total_length].
    change ((x :: rest) !! S i) with (rest !! i) in Hi.
    assert (Hw : wrap64 (wrap64 address + data_length x)
                 = wrap64 (address + data_length x)).
    { unfold wrap64. now rewrite Zplus_mod_idemp_l. }
    rewrite Hw. change (laid_out (wrap64 (address + data_length x)) rest !! i
                        = Some (relocate_area area
                                  (wrap64 (address
                                           + (data_length x + total_length (take i rest)))))).
    rewrite (IH _ _ Hi). f_equal. f_equal. f_equal. lia.
Qed.

(** X17. Without automatic relocation, placement gives each area the
    total length of the areas before it as final address (modulo 2^64)
    and leaves its buffer and its immediates as they are, whatever area
    the relocation-table pointer designates. *)
Theorem placement_without_relocation (settings : linker_settings_t)
    (relocation_table : option nat) (merged : list area_t) (i : nat) (area : area_t) :
  automatic_relocation settings = false ->
  merged !! i = Some area ->
  exists placed_area,
    place_areas settings relocation_table merged !! i = Some placed_area
    /\ final_address placed_area = wrap64 (total_length (take i merged))
    /\ data placed_area = data area
    /\ late_immediates placed_area = late_immediates area
    /\ area_name placed_area = area_name area.
Proof.
  intros Hoff Hi. rewrite place_areas_plain by done.
  change 0 with (wrap64 0) at 1. rewrite (laid_out_lookup 0 merged i area Hi).
  eexists. split; [reflexivity |]. repeat split.
Qed.

Lemma placement_without_relocation_witness :
  exists placed_area,
    place_areas auto_off (Some 0%nat) [call_area; plain_area; call_area] !! 2%nat
    = Some placed_area
    /\ final_address placed_area = 7.
Proof.
  destruct (placement_without_relocation auto_off (Some 0%nat)
              [call_area; plain_area; call_area] 2 call_area eq_refl eq_refl)
    as (placed_area & Hlook & Hfinal & _).
  exists placed_area. split; [exact Hlook | exact Hfinal].
Defined.

(** ** The third loop and the whole link *)

Lemma resolve_immediate_values_rounds (symbols : list symbol_t) (area : area_t)
    (errors : list error_t) :
  resolve_immediate_values symbols area errors
  = (symbols,
     mk_area (area_name area) (map (rebase_immediate area) (late_immediates area))
       (area_symbols area)
       (fold_left (fun data imm => round_patch area symbols imm data)
                  (late_immediates area) (data area))
       (final_address area),
     errors ++ flat_map (round_errors area symbols) (late_immediates area)).
Proof. unfold resolve_immediate_values. now rewrite resolve_loop_rounds. Qed.

Lemma emit_loop_round (origin : Z) (area : area_t) (rest : list area_t)
    (st : emit_state) :
  emit_loop origin (area :: rest) st
  = let symbols1 :=
      if origin =? 0 then es_symbols st else move_origin origin (es_symbols st) in
    let resolved := resolve_immediate_values symbols1 area (es_errors st) in
    let next :=
      emit_loop origin rest
        (mk_es symbols1 (snd resolved) (es_final st ++ data (snd (fst resolved)))) in
    (snd (fst resolved) :: fst next, snd next).
Proof.
  cbn [emit_loop]. cbv zeta.
  rewrite (resolve_immediate_values_rounds _ area (es_errors st)).
  cbn [fst snd]. now destruct (emit_loop origin rest _).
Qed.




Lemma gather_fold_errors (defs : list (area_t * symbol_t))
    (st : list symbol_t * list error_t) :
  exists reported,
    snd (fold_left gather_definition defs st) = snd st ++ map duplicate_error reported.
Proof.
  revert st. induction defs as [|d rest IH]; intros st.
  - exists []. simpl. now rewrite app_nil_r.
  - cbn [fold_left]. destruct (IH (gather_definition st d)) as (reported & ->).
    unfold gather_definition. destruct (find_symbol (fst st) (sym_name (snd d))).
    + exists (d :: reported). cbn [snd map]. now rewrite <- app_assoc.
    + exists reported. reflexivity.
Qed.

Lemma emit_loop_errors (origin : Z) (areas : list area_t) (st : emit_state) :
  exists added,
    es_errors (snd (emit_loop origin areas st)) = es_errors st ++ added
    /\ Forall (fun e => err_code e <> ERROR_DUPLICATE_SYMBOL) added.
Proof.
  revert st. induction areas as [|area rest IH]; intros st.
  - exists []. split; [simpl; now rewrite app_nil_r | constructor].
  - rewrite emit_loop_round. cbv zeta. cbn [snd].
    match goal with
    | |- context [emit_loop origin rest ?st1] => destruct (IH st1) as (added & -> & Hall)
    end.
    cbn [es_errors]. rewrite resolve_immediate_values_rounds. cbn [snd].
    eexists. split; [rewrite <- app_assoc; reflexivity |].
    apply Forall_app. split; [| exact Hall].
    eapply Forall_impl; [apply round_errors_all |]. now intros e [_ Hc].
Qed.

(** X19. The diagnostics of a link are first all the DuplicateSymbol
    diagnostics of the gathering, then the diagnostics of the resolver
    area by area; no DuplicateSymbol diagnostic comes after a diagnostic
    of another kind. *)
Theorem link_diagnostics_order (settings : linker_settings_t) (origin : Z)
    (relocation_table : option nat) (merged : list area_t) :
  let placed := place_areas settings relocation_table merged in
  let r := link_objects settings origin relocation_table merged in
  exists resolver_errors,
    lr_errors r = snd (gather_all placed [] []) ++ resolver_errors
    /\ Forall (fun e => err_code e = ERROR_DUPLICATE_SYMBOL) (snd (gather_all placed [] []))
    /\ Forall (fun e => err_code e <> ERROR_DUPLICATE_SYMBOL) resolver_errors.
Proof.
  cbv zeta. unfold link_objects.
  destruct (gather_fold_errors
              (definitions (place_areas settings relocation_table merged)) ([], []))
    as (reported & Hrep).
  rewrite <- gather_all_fold in Hrep.
  destruct (gather_all _ [] []) as [symbols errors0]. cbn [snd app] in *.
  destruct (emit_loop_errors origin (place_areas settings relocation_table merged)
              (mk_es symbols errors0 [])) as (added & Hadd & Hall).
  destruct (emit_loop _ _ _) as [areas st]. cbn [snd es_errors lr_errors] in *.
  exists added. split; [exact Hadd | split; [| exact Hall]].
  subst errors0. apply Forall_forall. intros e Hin.
  apply list_elem_of_fmap in Hin as (d & -> & _). reflexivity.
Qed.

Lemma resolve_only_sets_bits (symbols : list symbol_t) (area : area_t)
    (errors : list error_t) :
  only_sets_bits area (snd (fst (resolve_immediate_values symbols area errors))).
Proof.
  rewrite resolve_immediate_values_rounds. cbn [fst snd]. unfold only_sets_bits.
  cbn [data]. generalize (data area) as d.
  induction (late_immediates area) as [|imm rest IH]; intros d.
  - split; [reflexivity |]. intros k b Hk. exists b.
    split; [exact Hk | apply Z.land_diag].
  - cbn [fold_left]. destruct (IH (round_patch area symbols imm d)) as [Hlen Hbits].
    assert (Hround : length (round_patch area symbols imm d) = length d
                     /\ forall k b, d !! k = Some b ->
                          exists b', round_patch area symbols imm d !! k = Some b'
                                     /\ keeps_bits b b').
    { unfold round_patch.
      destruct (ev_error _);
        try (split; [reflexivity |]; intros k b Hk; exists b;
             split; [exact Hk | apply Z.land_diag]).
      split; [apply length_patch_loop |].
      intros k b Hk. now apply patch_loop_keeps_bits. }
    destruct Hround as [Hlen1 Hbits1]. split; [lia |].
    intros k b Hk. destruct (Hbits1 k b Hk) as (b1 & H1 & Hb1).
    destruct (Hbits k b1 H1) as (b' & H' & Hb').
    exists b'. split; [exact H' | now apply (keeps_bits_trans b b1 b')].
Qed.

Lemma emit_loop_only_sets_bits (origin : Z) (areas : list area_t) (st : emit_state) :
  Forall2 only_sets_bits areas (fst (emit_loop origin areas st)).
Proof.
  revert st. induction areas as [|area rest IH]; intros st.
  - constructor.
  - rewrite emit_loop_round. cbv zeta. cbn [fst].
    constructor; [apply resolve_only_sets_bits | apply IH].
Qed.

Lemma concat_only_sets_bits (l l' : list area_t) :
  Forall2 only_sets_bits l l' ->
  length (concat (map data l')) = length (concat (map data l))
  /\ forall k b, concat (map data l) !! k = Some b ->
       exists b', concat (map data l') !! k = Some b' /\ keeps_bits b b'.
Proof.
  induction 1 as [|x x' l l' [Hlen Hbits] Hrest [IHlen IHbits]].
  - split; [reflexivity | intros k b Hk; discriminate].
  - cbn [map concat]. split; [rewrite !length_app; lia |].
    intros k b Hk. destruct (Nat.lt_ge_cases k (length (data x))) as [Hlt | Hge].
    + rewrite lookup_app_l in Hk by done.
      rewrite lookup_app_l by lia. now apply Hbits.
    + rewrite lookup_app_r in Hk by done.
      rewrite lookup_app_r by lia. rewrite Hlen. now apply IHbits.
Qed.

(** X20. Linking never clears a bit and never changes a size: the buffer
    handed to the output writer is as long as the placed areas together,
    and each of its bytes has every bit set that the byte had after
    placement, which without automatic relocation is the input byte. *)
Theorem link_only_sets_bits (settings : linker_settings_t) (origin : Z)
    (relocation_table : option nat) (merged : list area_t) :
  let placed := place_areas settings relocation_table merged in
  let r := link_objects settings origin relocation_table merged in
  length (lr_output r) = length (concat (map data placed))
  /\ (forall k b, concat (map data placed) !! k = Some b ->
        exists b', lr_output r !! k = Some b' /\ keeps_bits b b')
  /\ (automatic_relocation settings = false -> map data placed = map data merged).
Proof.
  cbv zeta. split; [| split].
  - rewrite (proj1 (link_objects_output settings origin relocation_table merged)).
    unfold link_objects. destruct (gather_all _ [] []) as [symbols errors0].
    pose proof (emit_loop_only_sets_bits origin
                  (place_areas settings relocation_table merged)
                  (mk_es symbols errors0 [])) as Hall.
    destruct (emit_loop _ _ _) as [areas st]. cbn [fst lr_areas] in *.
    now apply concat_only_sets_bits.
  - rewrite (proj1 (link_objects_output settings origin relocation_table merged)).
    unfold link_objects. destruct (gather_all _ [] []) as [symbols errors0].
    pose proof (emit_loop_only_sets_bits origin
                  (place_areas settings relocation_table merged)
                  (mk_es symbols errors0 [])) as Hall.
    destruct (emit_loop _ _ _) as [areas st]. cbn [fst lr_areas] in *.
    now apply concat_only_sets_bits.
  - intros Hoff. rewrite place_areas_plain by done. apply laid_out_data.
Qed.

Lemma emit_loop_plain_area (origin : Z) (areas : list area_t) (st : emit_state)
    (i : nat) (area : area_t) :
  areas !! i = Some area -> late_immediates area = [] ->
  fst (emit_loop origin areas st) !! i = Some area.
Proof.
  revert st i. induction areas as [|x rest IH]; intros st i Hi Hnone; [discriminate |].
  rewrite emit_loop_round. cbv zeta. cbn [fst]. destruct i as [|i].
  - injection Hi as ->. cbn [lookup list_lookup]. f_equal.
    rewrite resolve_immediate_values_rounds. cbn [fst snd]. rewrite Hnone.
    cbn [map fold_left]. destruct area as [name imms syms bytes final].
    cbn in *. now subst.
  - change ((x :: rest) !! S i) with (rest !! i) in Hi.
    change ((?a :: ?l) !! S i) with (l !! i). now apply IH.
Qed.

(** X21. The third loop leaves an area without late immediates alone:
    after the link it has the name, the final address and the buffer
    placement gave it, and still no immediates. *)
Theorem link_keeps_plain_area (settings : linker_settings_t) (origin : Z)
    (relocation_table : option nat) (merged : list area_t) (i : nat) (area : area_t) :
  place_areas settings relocation_table merged !! i = Some area ->
  late_immediates area = [] ->
  exists area',
    lr_areas (link_objects settings origin relocation_table merged) !! i = Some area'
    /\ data area' = data area
    /\ final_address area' = final_address area
    /\ area_name area' = area_name area
    /\ late_immediates area' = [].
Proof.
  intros Hi Hnone. unfold link_objects.
  destruct (gather_all _ [] []) as [symbols errors0].
  pose proof (emit_loop_plain_area origin (place_areas settings relocation_table merged)
                (mk_es symbols errors0 []) i area Hi Hnone) as H.
  destruct (emit_loop _ _ _) as [areas st]. cbn [fst lr_areas] in *.
  exists area. repeat split; done.
Qed.

Lemma link_keeps_plain_area_witness :
  exists area',
    lr_areas (link_objects auto_off 0x8000 None [call_area; plain_area]) !! 1%nat
    = Some area'
    /\ data area' = [1; 2; 3; 4].
Proof.
  destruct (link_keeps_plain_area auto_off 0x8000 None [call_area; plain_area] 1
              (mk_area "DATA" [] [] [1; 2; 3; 4] 3) eq_refl eq_refl)
    as (area' & Hlook & Hdata & _).
  exists area'. split; [exact Hlook | exact Hdata].
Defined.

(** ** Gathering a whole object *)

(** X22. However often a name is defined in the merged object, the
    table holds exactly its first definition (in the order of areas and
    of the symbols within an area), and every later definition is
    reported as a duplicate, in order, with its own area, address and
    spelling. *)
Theorem gather_first_definition_wins (areas : list area_t) (name : string) :
  let named := filter (fun d => sym_key (snd d) = lowercase name) (definitions areas) in
  filter (fun sym => sym_key sym = lowercase name) (fst (gather_all areas [] []))
    = take 1 (map snd named)
  /\ filter (reports_duplicate_of name) (snd (gather_all areas [] []))
     = map duplicate_error (drop 1 named).
Proof.
  cbv zeta. rewrite gather_all_fold.
  exact (gather_fold_name name (definitions areas) ([], [])).
Qed.

(** ** The size of the image under automatic relocation *)

Lemma total_length_concat (areas : list area_t) :
  Z.of_nat (length (concat (map data areas))) = total_length areas.
Proof.
  induction areas as [|area rest IH]; [reflexivity |].
  cbn [map concat total_length]. rewrite length_app. unfold data_length. lia.
Qed.

Lemma total_length_app (l1 l2 : list area_t) :
  total_length (l1 ++ l2) = total_length l1 + total_length l2.
Proof.
  induction l1 as [|area rest IH]; [reflexivity |].
  cbn [app total_length]. lia.
Qed.

Lemma total_length_laid_out (address : Z) (areas : list area_t) :
  total_length (laid_out address areas) = total_length areas.
Proof.
  rewrite <- !total_length_concat. now rewrite laid_out_data.
Qed.

Lemma total_length_same_place (l l' : list area_t) :
  Forall2 same_place l l' -> total_length l' = total_length l.
Proof.
  induction 1 as [|p a ps as' (_ & _ & Hd) _ IH]; [reflexivity |].
  cbn [total_length]. lia.
Qed.

Lemma length_entries_laid_out (address : Z) (areas : list area_t) :
  length (concat (map relocation_entries (laid_out address areas)))
  = (2 * length (flat_map (fun area => filter is_relocated (late_immediates area))
                          areas))%nat.
Proof.
  revert address. induction areas as [|area rest IH]; intros address; [reflexivity |].
  cbn [laid_out map concat flat_map]. rewrite !length_app, IH.
  unfold relocation_entries. rewrite length_relocation_entries.
  cbn [late_immediates relocate_area]. lia.
Qed.

(** X23. Under automatic relocation, when no area placed after the
    relocation table adds an entry to it, the image handed to the output
    writer is longer than the merged areas together by two bytes for each
    relocated immediate and two bytes for the terminator. *)
Theorem relocated_image_length (settings : linker_settings_t) (origin : Z)
    (user : list area_t) (table : area_t) (rest : list area_t) :
  automatic_relocation settings = true ->
  Forall adds_no_entry rest ->
  let merged := user ++ table :: rest in
  let relocated :=
    flat_map (fun area => filter is_relocated (late_immediates area)) user in
  Z.of_nat (length (lr_output (link_objects settings origin (Some (length user)) merged)))
  = total_length merged + 2 * Z.of_nat (length relocated) + 2.
Proof.
  intros Hon Hrest merged relocated.
  destruct (link_objects_output settings origin (Some (length user)) merged)
    as [Hout Hsame].
  assert (Hlen : Z.of_nat (length (lr_output
                    (link_objects settings origin (Some (length user)) merged)))
                 = total_length (place_areas settings (Some (length user)) merged)).
  { rewrite Hout, total_length_concat. now apply total_length_same_place. }
  rewrite Hlen. unfold merged. rewrite place_areas_table by done.
  rewrite !total_length_app. cbn [total_length].
  rewrite !total_length_laid_out.
  unfold data_length at 1. cbn [data append_to_area relocate_area].
  rewrite !length_app, length_entries_laid_out. fold relocated.
  unfold data_length. simpl length. lia.
Qed.

Lemma relocated_image_length_witness :
  Z.of_nat (length (lr_output (link_objects auto_on 0 (Some 1%nat)
                                 [mixed_area; table_area; plain_area])))
  = 8 + 0 + 4 + 2 * 1 + 2.
Proof.
  exact (relocated_image_length auto_on 0 [mixed_area] table_area [plain_area]
           eq_refl ltac:(repeat constructor)).
Defined.
